(** * Microsoft SQL plugin

    A shallow embedding of the plugin's two source files, the pooled plugin
    ([MicrosoftSQLPlugin extends DatabasePluginPooled], module [Pooled]) and
    the earlier plugin of [src/index.ts] ([MicrosoftSQLPlugin extends
    BasePlugin], module [Legacy]), with the properties of its binding
    resolver, its connection handling, its query execution and its schema
    introspection. *)

From Stdlib Require Import ZArith NArith String Ascii List Lia.
From stdpp Require Import gmap strings list pretty sorting.

Set Default Proof Using "Type".

(** ** JavaScript values, errors and outcomes *)

(** The values that flow through the plugin as parameters and cells. *)
Inductive JsValue : Type :=
| JsUndefined
| JsNull
| JsBool (b : bool)
| JsNumber (n : Z)
| JsString (s : string).

(** What a [throw] carries: the plugin's own [IntegrationError], an error of
    the mssql driver, or a [TypeError] of the language. *)
Inductive JsError : Type :=
| IntegrationError (msg : string)
| DriverError (msg : string)
| TypeError (msg : string).

(** [err.message] *)
Definition message (err : JsError) : string :=
  match err with
  | IntegrationError msg | DriverError msg | TypeError msg => msg
  end.

(** How a call ends: it returns a value or throws (an async function:
    its promise is fulfilled or rejected). *)
Inductive Outcome (A : Type) : Type :=
| Returned (a : A)
| Thrown (err : JsError).
Arguments Returned {A} a.
Arguments Thrown {A} err.

(** [pluginName = 'Microsoft SQL'] *)
Definition pluginName : string := "Microsoft SQL".

(** ** Configuration and context records *)

(** [actionConfiguration]: the query body and the prepared-statement flag,
    both optional properties. *)
Record ActionConfiguration : Type := {
  body : option string;
  usePreparedSql : option bool
}.

(** The execution context: the host's bindings and the writable
    [preparedStatementContext] slot. *)
Record ExecutionContext : Type := {
  globals : gmap string JsValue;
  preparedStatementContext : list JsValue
}.

(** [context.preparedStatementContext = l] *)
Definition set_preparedStatementContext
    (context : ExecutionContext) (l : list JsValue) : ExecutionContext :=
  {| globals := globals context; preparedStatementContext := l |}.

Record ActionConfigurationResolutionContext : Type := {
  actionConfiguration : ActionConfiguration;
  property : string;
  context : ExecutionContext;
  files : option (gmap string string);
  escapeStrings : bool
}.

(** [resolutionContext.context = c]: the context object is shared, so a
    second resolution sees what the first one wrote. *)
Definition with_context
    (rc : ActionConfigurationResolutionContext) (c : ExecutionContext)
  : ActionConfigurationResolutionContext :=
  {| actionConfiguration := actionConfiguration rc;
     property := property rc;
     context := c;
     files := files rc;
     escapeStrings := escapeStrings rc |}.

(** [{ resolved: ... }] *)
Record ResolvedActionConfigurationProperty : Type := {
  resolved : string
}.

(** Truthiness of an optional boolean property ([!x] is its negation). *)
Definition truthy_flag (x : option bool) : bool := default false x.

(** [`@PARAM_${n}`], the placeholder written into the SQL text. *)
Definition placeholder (n : nat) : string := "@PARAM_" +:+ pretty n.

(** [`PARAM_${n}`], the name a value is bound under on the request. *)
Definition param_name (n : nat) : string := "PARAM_" +:+ pretty n.

(** A row of a record set: column name and cell, in column order. *)
Definition Row : Type := list (string * JsValue).

(** ** What the plugin imports

    The functions of [@superblocksteam/shared-backend] that the plugin calls
    and the resolver of its base class. Their code is not part of the
    sources; the plugin is embedded over any implementation of them. *)
Record SharedBackend : Type := {
  (* [extractMustacheStrings(template)] *)
  extractMustacheStrings : string -> list string;
  (* [renderValue(template, bindingResolution)] *)
  renderValue : string -> gmap string string -> string;
  (* [await resolveAllBindings(template, context, files, escapeStrings)]:
     the evaluated value of each expression, by the expression's text *)
  resolveAllBindings :
    string -> ExecutionContext -> gmap string string -> bool ->
    Outcome (gmap string JsValue);
  (* [super.resolveActionConfigurationProperty(resolutionContext)]: what it
     returns and what it leaves in the shared context *)
  super_resolveActionConfigurationProperty :
    ActionConfigurationResolutionContext ->
    Outcome ResolvedActionConfigurationProperty * ExecutionContext;
  (* [normalizeTableColumnNames(recordset)] *)
  normalizeTableColumnNames : list Row -> list Row
}.

(** ** The binding resolver *)

(** The state of the loop over the expressions: the own properties of the
    [bindingResolution] object (used as a dictionary keyed by the
    expression's text), the [preparedStatementContext] array and the
    [bindingCount] counter. *)
Record BindingState : Type := {
  bindingResolution : gmap string string;
  statementContext : list JsValue;
  bindingCount : nat
}.

(** [bindingResolution = {}; preparedStatementContext = []; bindingCount = 1] *)
Definition initial_bindings : BindingState :=
  {| bindingResolution := ∅; statementContext := []; bindingCount := 1 |}.

(** [bindingResolutions[toEval]]: what the read of the evaluator's result
    under the text yields, [undefined] for a text that has no entry. *)
Definition resolution_of (bindingResolutions : gmap string JsValue) (toEval : string) : JsValue :=
  default JsUndefined (bindingResolutions !! toEval).

(** [bindingResolution[key] = value] for a string [value], on an object
    created as [{}]: an own property is created or overwritten under every
    key but ["__proto__"]. That key is the accessor that the object
    inherits from [Object.prototype]; its setter ignores a value that is
    neither an object nor [null], so the object is left as it was. *)
Definition assign_property (key value : string) (o : gmap string string)
  : gmap string string :=
  if decide (key = "__proto__") then o else <[key := value]> o.

(** The body of the loop:
    [bindingResolution[toEval] = `@PARAM_${bindingCount++}`;
     preparedStatementContext.push(bindingResolutions[toEval])]. *)
Definition bind_expression (bindingResolutions : gmap string JsValue)
    (st : BindingState) (toEval : string) : BindingState :=
  {| bindingResolution :=
       assign_property toEval (placeholder (bindingCount st)) (bindingResolution st);
     statementContext := statementContext st ++ [resolution_of bindingResolutions toEval];
     bindingCount := S (bindingCount st) |}.

(** [for (const toEval of extractMustacheStrings(propertyToResolve)) ...] *)
Definition bind_expressions (bindingResolutions : gmap string JsValue)
    (st : BindingState) (toEvals : list string) : BindingState :=
  foldl (bind_expression bindingResolutions) st toEvals.

(** [resolutionContext.actionConfiguration[resolutionContext.property] ?? '']
    on the prepared path, where the property is ['body']. *)
Definition propertyToResolve (rc : ActionConfigurationResolutionContext) : string :=
  default "" (body (actionConfiguration rc)).

(** The prepared path of the resolver, lines 38-52 of the pooled plugin
    (31-45 of [src/index.ts]): evaluate all bindings, reset the context's
    parameter list, number the occurrences, render. The rendered string and
    the context as the call leaves it. *)
Definition resolve_prepared (sb : SharedBackend)
    (rc : ActionConfigurationResolutionContext)
  : Outcome string * ExecutionContext :=
  let propertyToResolve := propertyToResolve rc in
  match resolveAllBindings sb propertyToResolve (context rc)
          (default ∅ (files rc)) (escapeStrings rc) with
  | Thrown err => (Thrown err, context rc)
  | Returned bindingResolutions =>
      let st := bind_expressions bindingResolutions initial_bindings
                  (extractMustacheStrings sb propertyToResolve) in
      (Returned (renderValue sb propertyToResolve (bindingResolution st)),
       set_preparedStatementContext (context rc) (statementContext st))
  end.

(** ** The mustache helpers *)

Module Mustache.

(** A template cut into literal text and embedded expressions; an
    expression token holds the delimited fragment, braces included. *)
Inductive Token : Type :=
| TText (s : string)
| TExpr (s : string).

(** One pass over the template. [inside] tells whether an opening
    [{{] is pending, [acc] is the text read since the last cut. A [{{]
    that is never closed stays literal text. *)
Fixpoint scan (inside : bool) (acc : string) (s : string) : list Token :=
  match s with
  | EmptyString => [TText (if inside then "{{" +:+ acc else acc)]
  | String c1 rest =>
      match rest with
      | String c2 rest' =>
          if negb inside && Ascii.eqb c1 "{"%char && Ascii.eqb c2 "{"%char
          then TText acc :: scan true "" rest'
          else if inside && Ascii.eqb c1 "}"%char && Ascii.eqb c2 "}"%char
          then TExpr ("{{" +:+ acc +:+ "}}") :: scan false "" rest'
          else scan inside (acc +:+ String c1 "") rest
      | EmptyString => scan inside (acc +:+ String c1 "") rest
      end
  end.

Definition tokenize (template : string) : list Token := scan false "" template.

Definition expressions (toks : list Token) : list string :=
  omap (fun tok => match tok with TExpr e => Some e | TText _ => None end) toks.

(** Modelled from the spec: [extractMustacheStrings] of
    [@superblocksteam/shared-backend] is not part of the sources. Spec
    4.1: the ordered sequence, duplicates preserved, left to right, of the
    embedded expressions of the template; empty when there is none. *)
Definition extractMustacheStrings (template : string) : list string :=
  expressions (tokenize template).

Definition render_token (bindingResolution : gmap string string) (tok : Token) : string :=
  match tok with
  | TText s => s
  | TExpr e => default e (bindingResolution !! e)
  end.

Definition concat_strings (l : list string) : string :=
  foldr String.append "" l.

(** Modelled from the spec: [renderValue] of
    [@superblocksteam/shared-backend] is not part of the sources. Spec
    4.2 step 5: every occurrence of an expression is replaced by what the
    given resolution assigns to the expression's text. *)
Definition renderValue (template : string) (bindingResolution : gmap string string) : string :=
  concat_strings (render_token bindingResolution <$> tokenize template).

(** The rendering the specification describes for the resolver, written
    from its words: the i-th occurrence, counted from [n], becomes
    [@PARAM_i]. *)
Fixpoint render_per_occurrence (n : nat) (toks : list Token) : string :=
  match toks with
  | [] => ""
  | TText s :: toks' => s +:+ render_per_occurrence n toks'
  | TExpr _ :: toks' => placeholder n +:+ render_per_occurrence (S n) toks'
  end.

(** The rendering by a function of the expression's text. *)
Definition render_by (f : string -> string) (toks : list Token) : string :=
  concat_strings ((fun tok => match tok with TText s => s | TExpr e => f e end) <$> toks).

(** The text between the braces of a delimited fragment. *)
Definition inner_text (fragment : string) : string :=
  substring 2 (String.length fragment - 4) fragment.

(** Modelled from the spec: a stand-in for [resolveAllBindings] of
    [@superblocksteam/shared-backend] (spec 4.2 step 1), used where a
    statement needs a concrete evaluator: the value of [{{x}}] is the
    context's binding of [x], [undefined] when there is none. *)
Definition resolveAllBindings (template : string) (context : ExecutionContext)
    (files : gmap string string) (escapeStrings : bool) : Outcome (gmap string JsValue) :=
  Returned (list_to_map
              ((fun e => (e, default JsUndefined (globals context !! inner_text e)))
                 <$> extractMustacheStrings template)).

End Mustache.

(** The spec's scanner and renderer as an implementation of the imports,
    over any evaluator, base class resolver and normaliser. *)
Definition mustache_backend
    (evaluate : string -> ExecutionContext -> gmap string string -> bool ->
                Outcome (gmap string JsValue))
    (base : ActionConfigurationResolutionContext ->
            Outcome ResolvedActionConfigurationProperty * ExecutionContext)
    (normalize : list Row -> list Row) : SharedBackend :=
  {| extractMustacheStrings := Mustache.extractMustacheStrings;
     renderValue := Mustache.renderValue;
     resolveAllBindings := evaluate;
     super_resolveActionConfigurationProperty := base;
     normalizeTableColumnNames := normalize |}.

(** A complete sample implementation: the stand-in evaluator, a base class
    resolver that returns the property as it stands, no renaming. *)
Definition spec_backend : SharedBackend :=
  mustache_backend Mustache.resolveAllBindings
    (fun rc => (Returned {| resolved := default "" (body (actionConfiguration rc)) |}, context rc))
    (fun rows => rows).

(** The evaluator does not read the parameter list that the resolver
    itself attaches to the context. *)
Definition ignores_preparedStatementContext (sb : SharedBackend) : Prop :=
  forall template c l fs esc,
    resolveAllBindings sb template (set_preparedStatementContext c l) fs esc
    = resolveAllBindings sb template c fs esc.

(** The position of the last occurrence of [e] in [l] (0 when it has none). *)
Fixpoint last_index (e : string) (l : list string) : nat :=
  match l with
  | [] => 0
  | _ :: l' => if bool_decide (e ∈ l') then S (last_index e l') else 0
  end.

(** ** Plain objects used as dictionaries

    [const tablesMap: Record<string, Table> = {}] is an ordinary object.
    Its own properties are kept the way the language enumerates them: the
    keys that are array indices in ascending numeric order, then the other
    keys in the order they were created. A read that finds no own property
    goes on to [Object.prototype]. *)

(** The value of a decimal digit. *)
Definition digit_of (c : ascii) : option N :=
  let n := N_of_ascii c in
  if ((48 <=? n) && (n <=? 57))%N then Some (n - 48)%N else None.

(** The number a string of decimal digits denotes. *)
Fixpoint parse_digits (acc : N) (s : string) : option N :=
  match s with
  | EmptyString => Some acc
  | String c s' =>
      match digit_of c with
      | Some d => parse_digits (10 * acc + d)%N s'
      | None => None
      end
  end.

(** A key is an array index when it is the canonical decimal string of an
    integer from 0 to 2^32 - 2 ("7", not "07" or "+7"). *)
Definition array_index (key : string) : option N :=
  match parse_digits 0 key with
  | Some n =>
      if (n <? 2 ^ 32 - 1)%N && String.eqb (pretty n) key then Some n else None
  | None => None
  end.

(** The property names of [Object.prototype]; each reads as a function or,
    for [__proto__], as the prototype object itself: all truthy. *)
Definition Object_prototype_names : list string :=
  [ "constructor"; "__defineGetter__"; "__defineSetter__"; "hasOwnProperty";
    "__lookupGetter__"; "__lookupSetter__"; "isPrototypeOf";
    "propertyIsEnumerable"; "toString"; "valueOf"; "__proto__";
    "toLocaleString" ].

(** The own properties of an object, in the order of enumeration. *)
Record JsObject (V : Type) : Type := {
  indexed : list (N * V);
  named : list (string * V)
}.
Arguments indexed {V} _.
Arguments named {V} _.

(** [{}] *)
Definition js_empty {V : Type} : JsObject V := {| indexed := []; named := [] |}.

(** The value under a key, if any. *)
Fixpoint assoc {K V : Type} `{EqDecision K} (k : K) (l : list (K * V)) : option V :=
  match l with
  | [] => None
  | (k', v) :: l' => if decide (k = k') then Some v else assoc k l'
  end.

(** Overwrite the value of an existing key; its place is kept. *)
Fixpoint assoc_update {K V : Type} `{EqDecision K} (k : K) (v : V) (l : list (K * V)) : list (K * V) :=
  match l with
  | [] => []
  | (k', v') :: l' =>
      if decide (k = k') then (k, v) :: l' else (k', v') :: assoc_update k v l'
  end.

(** A new index takes its place in ascending order. *)
Fixpoint insert_index {V : Type} (n : N) (v : V) (l : list (N * V)) : list (N * V) :=
  match l with
  | [] => [(n, v)]
  | (n', v') :: l' =>
      if (n <? n')%N then (n, v) :: l else (n', v') :: insert_index n v l'
  end.

(** The own property under a key, if any. *)
Definition own_property {V : Type} (key : string) (o : JsObject V) : option V :=
  match array_index key with
  | Some n => assoc n (indexed o)
  | None => assoc key (named o)
  end.

(** What [o[key]] reads: an own value, an inherited function or object,
    or [undefined]. *)
Inductive Lookup (V : Type) : Type :=
| Own (v : V)
| Inherited
| Missing.
Arguments Own {V} v.
Arguments Inherited {V}.
Arguments Missing {V}.

(** [o[key]]: the own property, else what [Object.prototype] has under
    the key, else [undefined]. *)
Definition js_get {V : Type} (key : string) (o : JsObject V) : Lookup V :=
  match own_property key o with
  | Some v => Own v
  | None =>
      if bool_decide (key ∈ Object_prototype_names) then Inherited else Missing
  end.

(** [o[key] = v] for a key other than the accessor [__proto__]: an own
    property is overwritten in place, a new one is created. *)
Definition js_set {V : Type} (key : string) (v : V) (o : JsObject V) : JsObject V :=
  match array_index key with
  | Some n =>
      {| indexed := match assoc n (indexed o) with
                    | Some _ => assoc_update n v (indexed o)
                    | None => insert_index n v (indexed o)
                    end;
         named := named o |}
  | None =>
      {| indexed := indexed o;
         named := match assoc key (named o) with
                  | Some _ => assoc_update key v (named o)
                  | None => named o ++ [(key, v)]
                  end |}
  end.

(** [Object.values(o)] *)
Definition Object_values {V : Type} (o : JsObject V) : list V :=
  (snd <$> indexed o) ++ (snd <$> named o).

(** ** The schema model and the fold of the catalog rows *)

(** Modelled from the spec: the classes [Table] and [Column] and the enum
    [TableType] of [@superblocksteam/shared] are not part of the sources.
    Spec 3: a table has a name, a type tag (here always "table") and an
    ordered sequence of columns, a column a name and a declared data
    type. *)
Inductive TableType : Type := TABLE.

(** [new Column(name, type)] *)
Record Column : Type := {
  col_name : string;
  col_type : string
}.

(** [new Table(name, type)] starts with an empty column list (spec 4.5). *)
Record Table : Type := {
  tbl_name : string;
  tbl_type : TableType;
  columns : list Column
}.

Record DbSchema : Type := { tables : list Table }.
Record DatasourceMetadataDto : Type := { dbSchema : DbSchema }.

(** A row of the catalog query: its three selected columns. *)
Record CatalogRecord : Type := {
  table_name : string;
  column_name : string;
  data_type : string
}.

(** [table.columns.push(column)] *)
Definition push_column (t : Table) (c : Column) : Table :=
  {| tbl_name := tbl_name t; tbl_type := tbl_type t; columns := columns t ++ [c] |}.

(** The body of [for (const record of resp.recordset)], lines 152-158
    (139-145 of [src/index.ts]). [tablesMap[record.table_name]] is truthy
    for an own table and for an inherited property alike; an inherited one
    has no [columns], so the [push] on it throws. *)
Definition fold_record (tablesMap : JsObject Table) (record : CatalogRecord)
  : Outcome (JsObject Table) :=
  let column := {| col_name := column_name record; col_type := data_type record |} in
  match js_get (table_name record) tablesMap with
  | Own table =>
      Returned (js_set (table_name record) (push_column table column) tablesMap)
  | Inherited =>
      Thrown (TypeError "Cannot read properties of undefined (reading 'push')")
  | Missing =>
      let table := {| tbl_name := table_name record; tbl_type := TABLE; columns := [] |} in
      Returned (js_set (table_name record) (push_column table column) tablesMap)
  end.

(** [for (const record of resp.recordset) ...]: the loop ends at the first
    turn that throws. *)
Fixpoint fold_records (tablesMap : JsObject Table) (recordset : list CatalogRecord)
  : Outcome (JsObject Table) :=
  match recordset with
  | [] => Returned tablesMap
  | record :: rest =>
      match fold_record tablesMap record with
      | Returned tablesMap' => fold_records tablesMap' rest
      | Thrown err => Thrown err
      end
  end.

(** Lines 151-167: fold the rows into [tablesMap], then copy
    [Object.values(tablesMap)] into [tables]. *)
Definition build_schema (recordset : list CatalogRecord) : Outcome DatasourceMetadataDto :=
  match fold_records js_empty recordset with
  | Returned tablesMap =>
      Returned {| dbSchema := {| tables := Object_values tablesMap |} |}
  | Thrown err => Thrown err
  end.

(** ** Datasource configuration *)

(** [datasourceConfiguration]: endpoint, authentication and connection
    options, each optional, as are their fields. *)
Record Endpoint : Type := {
  host : option string;
  endpoint_port : option Z
}.

(** [custom.databaseName] *)
Record Property : Type := { value : option string }.

Record AuthenticationCustom : Type := { databaseName : option Property }.

Record Authentication : Type := {
  username : option string;
  auth_password : option string;
  custom : option AuthenticationCustom
}.

Record ConnectionOptions : Type := { useSsl : option bool }.

Record MsSqlDatasourceConfiguration : Type := {
  endpoint : option Endpoint;
  authentication : option Authentication;
  connection : option ConnectionOptions
}.

(** [auth.custom?.databaseName?.value] *)
Definition databaseName_value (auth : Authentication) : option string :=
  match custom auth with
  | Some custom =>
      match databaseName custom with
      | Some databaseName => value databaseName
      | None => None
      end
  | None => None
  end.

(** Truthiness of an optional string: defined and not empty. *)
Definition truthy_string (s : option string) : bool :=
  match s with
  | Some s => negb (String.eqb s "")
  | None => false
  end.

(** The [sqlConfig] object handed to the driver. [port] is
    [Number(endpoint.port)], [None] standing for [NaN]. *)
Record SqlConfig : Type := {
  user : option string;
  password : option string;
  database : string;
  server : option string;
  port : option Z;
  requestTimeout : Z;
  trustServerCertificate : bool;
  encrypt : bool
}.

(** ** The driver and the effects of a call *)

(** A connection pool, known by the configuration it was made from. *)
Record ConnectionPool : Type := { pool_config : SqlConfig }.

(** What reaches the driver, in order: a connection attempt, a query with
    the inputs bound on its request, a close. *)
Inductive Event : Type :=
| EvConnect (cfg : SqlConfig)
| EvQuery (inputs : list (string * JsValue)) (sql : string)
| EvClose (conn : ConnectionPool).

(** The database's side: what it answers to each call, given everything
    that reached it before. [None] is success for connect and close. *)
Record Driver : Type := {
  connect_reply : list Event -> SqlConfig -> option JsError;
  query_reply : list Event -> list (string * JsValue) -> string -> Outcome (list Row);
  catalog_reply : list Event -> Outcome (list CatalogRecord);
  close_reply : list Event -> ConnectionPool -> option JsError
}.

(** A computation of the plugin: under a driver and after a history of
    events it ends in an outcome and a longer history. *)
Definition M (A : Type) : Type := Driver -> list Event -> Outcome A * list Event.

(** [return a] *)
Definition ret {A : Type} (a : A) : M A := fun _ tr => (Returned a, tr).

(** [throw err] *)
Definition throw {A : Type} (err : JsError) : M A := fun _ tr => (Thrown err, tr).

(** [const a = await m; k(a)]: a throw of [m] ends the sequence. *)
Definition bind {A B : Type} (m : M A) (k : A -> M B) : M B :=
  fun drv tr =>
    match m drv tr with
    | (Returned a, tr') => k a drv tr'
    | (Thrown err, tr') => (Thrown err, tr')
    end.

Notation "'let*' x ':=' m 'in' k" := (bind m (fun x => k))
  (at level 10, x name, m at level 100, k at level 200).

(** [try { m } catch (err) { handler }] *)
Definition try_catch {A : Type} (m : M A) (handler : JsError -> M A) : M A :=
  fun drv tr =>
    match m drv tr with
    | (Returned a, tr') => (Returned a, tr')
    | (Thrown err, tr') => handler err drv tr'
    end.

(** [try { m } finally { cleanup }]: the cleanup runs on both exits; only
    if it throws itself does its error take the place of [m]'s outcome. *)
Definition try_finally {A : Type} (m : M A) (cleanup : M unit) : M A :=
  fun drv tr =>
    let '(r, tr') := m drv tr in
    match cleanup drv tr' with
    | (Returned _, tr'') => (r, tr'')
    | (Thrown err, tr'') => (Thrown err, tr'')
    end.

(** [promise.catch(() => {})], and a promise that is dropped without an
    [await]: the call is made, its failure reaches nobody. *)
Definition swallow (m : M unit) : M unit :=
  try_catch m (fun _ => ret tt).

(** [await connPool.connect()] / [await mssql.connect(sqlConfig)] *)
Definition connect (cfg : SqlConfig) : M ConnectionPool :=
  fun drv tr =>
    match connect_reply drv tr cfg with
    | None => (Returned {| pool_config := cfg |}, tr ++ [EvConnect cfg])
    | Some err => (Thrown err, tr ++ [EvConnect cfg])
    end.

(** A request and the inputs bound on it so far. *)
Record Request : Type := { inputs : list (string * JsValue) }.

(** [conn.request()] *)
Definition new_request (conn : ConnectionPool) : Request := {| inputs := [] |}.

(** [request.input(name, value)] *)
Definition input (request : Request) (name : string) (v : JsValue) : Request :=
  {| inputs := inputs request ++ [(name, v)] |}.

(** [request.query(sql)]; its [recordset]. *)
Definition query (request : Request) (sql : string) : M (list Row) :=
  fun drv tr =>
    (query_reply drv tr (inputs request) sql, tr ++ [EvQuery (inputs request) sql]).

(** [conn.query(sql)] / [mssql.query(sql)] of the catalog query; its
    [recordset]. *)
Definition query_catalog (sql : string) : M (list CatalogRecord) :=
  fun drv tr => (catalog_reply drv tr, tr ++ [EvQuery [] sql]).

(** [connection.close()] *)
Definition close (conn : ConnectionPool) : M unit :=
  fun drv tr =>
    match close_reply drv tr conn with
    | None => (Returned tt, tr ++ [EvClose conn])
    | Some err => (Thrown err, tr ++ [EvClose conn])
    end.

(** A thrown or returned pure outcome, as a computation. *)
Definition lift {A : Type} (r : Outcome A) : M A := fun _ tr => (r, tr).

(** Modelled from the spec: [executeQuery] of the base class
    ([DatabasePluginPooled]) is not part of the sources. Spec 4.4: the
    statement is run once, with no retry at this layer. *)
Definition executeQuery {A : Type} (run : M A) : M A := run.

(** ** Execution types *)

(** Modelled from the spec: the class [ExecutionOutput] of
    [@superblocksteam/shared] is not part of the sources. Spec 3: a
    sequence of records, or empty; [new ExecutionOutput()] has no output
    yet. *)
Record ExecutionOutput : Type := { output : option (list Row) }.

(** [new ExecutionOutput()] *)
Definition new_ExecutionOutput : ExecutionOutput := {| output := None |}.

(** The properties an execution is called with. *)
Record PluginExecutionProps : Type := {
  props_context : ExecutionContext;
  props_datasourceConfiguration : MsSqlDatasourceConfiguration;
  props_actionConfiguration : ActionConfiguration
}.

(** lodash's [isEmpty] on an optional string. *)
Definition isEmpty (query : option string) : bool :=
  match query with
  | Some s => String.eqb s ""
  | None => true
  end.

(** [!query] *)
Definition falsy_string (query : option string) : bool := negb (truthy_string query).

(** The loop [for (const param of context.preparedStatementContext)
    request = request.input(`PARAM_${paramCount++}`, param)]: the request
    and the counter after it. *)
Definition bind_params (request : Request) (paramCount : nat) (params : list JsValue)
  : Request * nat :=
  foldl (fun '(request, paramCount) param =>
           (input request (param_name paramCount) param, S paramCount))
        (request, paramCount) params.

(** The catalog query of [metadata]. *)
Definition catalog_sql : string :=
  "select table_name, column_name, data_type from information_schema.columns where table_schema != 'sys' order by ordinal_position".

(** The probe of [test]. *)
Definition test_sql : string := "select name from sys.databases".

(** [connectionTimeoutMillis = 30000] *)
Definition default_connectionTimeoutMillis : Z := 30000.

(** ** The pooled plugin *)

Module Pooled.

(** [resolveActionConfigurationProperty], lines 32-53. *)
Definition resolveActionConfigurationProperty (sb : SharedBackend)
    (resolutionContext : ActionConfigurationResolutionContext)
  : Outcome ResolvedActionConfigurationProperty * ExecutionContext :=
  if negb (truthy_flag (usePreparedSql (actionConfiguration resolutionContext)))
     || negb (String.eqb (property resolutionContext) "body")
  then super_resolveActionConfigurationProperty sb resolutionContext
  else
    match resolve_prepared sb resolutionContext with
    | (Returned rendered, context') => (Returned {| resolved := rendered |}, context')
    | (Thrown err, context') => (Thrown err, context')
    end.

(** [executePooled], lines 61-85. The connection is handed in by the base
    class. *)
Definition executePooled (sb : SharedBackend) (props : PluginExecutionProps)
    (conn : ConnectionPool) : M ExecutionOutput :=
  let query_text := body (props_actionConfiguration props) in
  let ret_ := new_ExecutionOutput in
  if falsy_string query_text || isEmpty query_text then ret ret_
  else
    let paramCount := 1 in
    let* result :=
      try_catch
        (executeQuery
           (let request := new_request conn in
            let '(request, _) :=
              bind_params request paramCount
                (preparedStatementContext (props_context props)) in
            query request (default "" query_text)))
        (fun err =>
           throw (IntegrationError (pluginName +:+ " query failed, " +:+ message err)))
    in
    ret {| output := Some (normalizeTableColumnNames sb result) |}.

(** [getRequest] *)
Definition getRequest (actionConfiguration : option ActionConfiguration) : option string :=
  match actionConfiguration with
  | Some ac => body ac
  | None => None
  end.

(** [dynamicProperties] *)
Definition dynamicProperties : list string := ["body"].

(** [destroyConnection], lines 96-98. *)
Definition destroyConnection (connection : ConnectionPool) : M unit :=
  close connection.

(** [createConnection], lines 101-137. *)
Definition createConnection (datasourceConfiguration : MsSqlDatasourceConfiguration)
    (connectionTimeoutMillis : Z) : M ConnectionPool :=
  match endpoint datasourceConfiguration with
  | None =>
      throw (IntegrationError ("Endpoint not specified for " +:+ pluginName +:+ " step"))
  | Some endpoint =>
      match authentication datasourceConfiguration with
      | None =>
          throw (IntegrationError
                   ("Authentication not specified for " +:+ pluginName +:+ " step"))
      | Some auth =>
          if negb (truthy_string (databaseName_value auth))
          then
            throw (IntegrationError
                     ("Database not specified for " +:+ pluginName +:+ " step"))
          else
            let sqlConfig :=
              {| user := username auth;
                 password := auth_password auth;
                 database := default "" (databaseName_value auth);
                 server := Some (default "" (host endpoint));
                 port := endpoint_port endpoint;
                 requestTimeout := connectionTimeoutMillis;
                 trustServerCertificate := true;
                 encrypt :=
                   match connection datasourceConfiguration with
                   | Some c => truthy_flag (useSsl c)
                   | None => false
                   end |} in
            try_catch
              (connect sqlConfig)
              (fun err =>
                 throw (IntegrationError
                          ("Failed to connect to " +:+ pluginName +:+ ", " +:+ message err)))
      end
  end.

(** [metadata], lines 139-177. *)
Definition metadata (datasourceConfiguration : MsSqlDatasourceConfiguration)
  : M DatasourceMetadataDto :=
  let* conn := createConnection datasourceConfiguration default_connectionTimeoutMillis in
  try_finally
    (try_catch
       (let* resp := executeQuery (query_catalog catalog_sql) in
        lift (build_schema resp))
       (fun err =>
          throw (IntegrationError
                   ("Failed to connect to " +:+ pluginName +:+ ", " +:+ message err))))
    (swallow (destroyConnection conn)).

(** [test], lines 179-194. *)
Definition test (datasourceConfiguration : MsSqlDatasourceConfiguration) : M unit :=
  let* conn := createConnection datasourceConfiguration default_connectionTimeoutMillis in
  try_finally
    (try_catch
       (let* _ := executeQuery (query (new_request conn) test_sql) in
        ret tt)
       (fun err =>
          throw (IntegrationError
                   ("Test " +:+ pluginName +:+ " connection failed, " +:+ message err))))
    (swallow (destroyConnection conn)).

End Pooled.

(** ** The plugin of [src/index.ts] *)

Module Legacy.

(** [let conn; try { conn = await acquire; body } catch (err) { handler }
    finally { if (conn) release }]: [conn] is assigned exactly when the
    acquisition returns, so the [finally] block releases exactly then. *)
Definition try_with_connection {A : Type} (acquire : M ConnectionPool)
    (body : ConnectionPool -> M A) (handler : JsError -> M A)
    (release : ConnectionPool -> M unit) : M A :=
  fun drv tr =>
    match acquire drv tr with
    | (Returned conn, tr') =>
        try_finally (try_catch (body conn) handler) (release conn) drv tr'
    | (Thrown err, tr') => handler err drv tr'
    end.

(** [resolveActionConfigurationProperty], lines 27-46; [base] is the
    resolver of [BasePlugin]. *)
Definition resolveActionConfigurationProperty (sb : SharedBackend)
    (base : ActionConfigurationResolutionContext -> Outcome string * ExecutionContext)
    (resolutionContext : ActionConfigurationResolutionContext)
  : Outcome string * ExecutionContext :=
  if negb (truthy_flag (usePreparedSql (actionConfiguration resolutionContext)))
     || negb (String.eqb (property resolutionContext) "body")
  then base resolutionContext
  else resolve_prepared sb resolutionContext.

(** [createConnection], lines 91-125. *)
Definition createConnection (datasourceConfiguration : MsSqlDatasourceConfiguration)
    (connectionTimeoutMillis : Z) : M ConnectionPool :=
  match endpoint datasourceConfiguration with
  | None =>
      throw (IntegrationError ("Endpoint not specified for " +:+ pluginName +:+ " step"))
  | Some endpoint =>
      match authentication datasourceConfiguration with
      | None =>
          throw (IntegrationError
                   ("Authentication not specified for " +:+ pluginName +:+ " step"))
      | Some auth =>
          if negb (truthy_string (databaseName_value auth))
          then
            throw (IntegrationError
                     ("Database not specified for " +:+ pluginName +:+ " step"))
          else
            let sqlConfig :=
              {| user := username auth;
                 password := auth_password auth;
                 database := default "" (databaseName_value auth);
                 server := host endpoint;
                 port := endpoint_port endpoint;
                 requestTimeout := connectionTimeoutMillis;
                 trustServerCertificate := true;
                 encrypt :=
                   match connection datasourceConfiguration with
                   | Some c => truthy_flag (useSsl c)
                   | None => false
                   end |} in
            try_catch
              (connect sqlConfig)
              (fun err =>
                 throw (IntegrationError
                          ("Failed to connect to " +:+ pluginName +:+ ", " +:+ message err)))
      end
  end.

(** [execute], lines 48-81. *)
Definition execute (sb : SharedBackend) (props : PluginExecutionProps) : M ExecutionOutput :=
  try_with_connection
    (createConnection (props_datasourceConfiguration props) default_connectionTimeoutMillis)
    (fun conn =>
       let query_text := body (props_actionConfiguration props) in
       let ret_ := new_ExecutionOutput in
       if isEmpty query_text then ret ret_
       else
         let request := new_request conn in
         let paramCount := 1 in
         let '(request, _) :=
           bind_params request paramCount
             (preparedStatementContext (props_context props)) in
         let* result := query request (default "" query_text) in
         ret {| output := Some (normalizeTableColumnNames sb result) |})
    (fun err =>
       throw (IntegrationError (pluginName +:+ " query failed, " +:+ message err)))
    (fun conn => swallow (close conn)).

(** [metadata], lines 127-162. *)
Definition metadata (datasourceConfiguration : MsSqlDatasourceConfiguration)
  : M DatasourceMetadataDto :=
  try_with_connection
    (createConnection datasourceConfiguration default_connectionTimeoutMillis)
    (fun conn =>
       let* resp := query_catalog catalog_sql in
       lift (build_schema resp))
    (fun err =>
       throw (IntegrationError
                ("Failed to connect to " +:+ pluginName +:+ ", " +:+ message err)))
    (fun conn => swallow (close conn)).

(** [test], lines 164-176. *)
Definition test (datasourceConfiguration : MsSqlDatasourceConfiguration) : M unit :=
  try_with_connection
    (createConnection datasourceConfiguration default_connectionTimeoutMillis)
    (fun conn =>
       let* _ := query (new_request conn) test_sql in
       ret tt)
    (fun err =>
       throw (IntegrationError
                ("Test " +:+ pluginName +:+ " connection failed, " +:+ message err)))
    (fun conn => swallow (close conn)).

End Legacy.

(** The names of a list in the order in which each is first met: going
    through the list, a name not seen before is added at the end. *)
Definition first_encounters (names : list string) : list string :=
  foldl (fun seen name => if bool_decide (name ∈ seen) then seen else seen ++ [name])
        [] names.

(** The rows of one table, as columns, in stream order. *)
Definition columns_of (name : string) (recordset : list CatalogRecord) : list Column :=
  (fun r => {| col_name := column_name r; col_type := data_type r |})
    <$> filter (fun r => table_name r = name) recordset.

(** The configuration error for a missing field: it names the field and
    the plugin. *)
Definition missing_field_error (field : string) : JsError :=
  IntegrationError (field +:+ " not specified for " +:+ pluginName +:+ " step").

(** Two drivers that answer connection attempts and queries alike; they
    may differ in how a close ends. *)
Definition same_but_close (d1 d2 : Driver) : Prop :=
  connect_reply d1 = connect_reply d2
  /\ query_reply d1 = query_reply d2
  /\ catalog_reply d1 = catalog_reply d2.

(** An operation releases the connection it acquired on every exit: once
    [acquire] has returned a connection, whatever happens next, the close
    of that connection is the last thing the operation does and the only
    close, and how the close ends changes neither the operation's outcome
    nor anything else it does. *)
Definition releases_on_every_exit {A : Type}
    (acquire : M ConnectionPool) (operation : M A) : Prop :=
  forall drv tr conn tr1,
    acquire drv tr = (Returned conn, tr1) ->
    (exists during,
       snd (operation drv tr) = tr1 ++ during ++ [EvClose conn]
       /\ forall c, EvClose c ∉ during)
    /\ forall drv', same_but_close drv drv' -> operation drv' tr = operation drv tr.

(** What [src/index.ts]'s [execute] sends between connecting and closing. *)
Definition sent_by_execute (props : PluginExecutionProps) : list Event :=
  if isEmpty (body (props_actionConfiguration props)) then []
  else [EvQuery (imap (fun i v => (param_name (S i), v))
                   (preparedStatementContext (props_context props)))
          (default "" (body (props_actionConfiguration props)))].

(** What the fold has made of the table names met so far: the keys that
    are no array index in the order of their first encounter, the array
    indices in ascending order, one per index-like name, and every table
    under its own name. *)
Definition names_view (names : list string) (o : JsObject Table) : Prop :=
  (named o).*1 = first_encounters (filter (fun name => array_index name = None) names)
  /\ StronglySorted N.lt (indexed o).*1
  /\ (forall n, n ∈ (indexed o).*1 <-> exists name, name ∈ names /\ array_index name = Some n)
  /\ Forall (fun p => tbl_name p.2 = p.1) (named o)
  /\ Forall (fun p => tbl_name p.2 = pretty p.1) (indexed o).

(** What the fold has put into the tables after the rows met so far: each
    table holds the columns of its rows, in stream order, and sits under
    the kind of key its name calls for. *)
Definition columns_view (rows : list CatalogRecord) (o : JsObject Table) : Prop :=
  Forall (fun p => array_index p.1 = None /\ columns p.2 = columns_of p.1 rows) (named o)
  /\ Forall (fun p => array_index (pretty p.1) = Some p.1
                      /\ columns p.2 = columns_of (pretty p.1) rows) (indexed o).

(** ** Sample inputs *)

(** The template of the specification's end-to-end example, resolved in a
    context that still holds a parameter from an earlier call. *)
Definition two_bindings : ActionConfigurationResolutionContext :=
  {| actionConfiguration :=
       {| body := Some "SELECT * FROM t WHERE id = {{id}} AND name = {{name}}";
          usePreparedSql := Some true |};
     property := "body";
     context :=
       {| globals := {[ "id" := JsNumber 5; "name" := JsString "ann" ]};
          preparedStatementContext := [JsNull] |};
     files := None;
     escapeStrings := false |}.

(** A template in which one expression occurs twice. *)
Definition repeated_binding : ActionConfigurationResolutionContext :=
  {| actionConfiguration :=
       {| body := Some "SELECT * FROM t WHERE a = {{id}} OR b = {{id}}";
          usePreparedSql := Some true |};
     property := "body";
     context :=
       {| globals := {[ "id" := JsNumber 5 ]}; preparedStatementContext := [] |};
     files := None;
     escapeStrings := false |}.

(** A database that accepts everything and answers every query with no
    row, and one whose closes fail. *)
Definition quiet_driver : Driver :=
  {| connect_reply := fun _ _ => None;
     query_reply := fun _ _ _ => Returned [];
     catalog_reply := fun _ => Returned [];
     close_reply := fun _ _ => None |}.

Definition failing_close_driver : Driver :=
  {| connect_reply := fun _ _ => None;
     query_reply := fun _ _ _ => Returned [];
     catalog_reply := fun _ => Returned [];
     close_reply := fun _ _ => Some (DriverError "close failed") |}.

Definition sample_configuration : MsSqlDatasourceConfiguration :=
  {| endpoint := Some {| host := Some "db.example"; endpoint_port := Some 1433%Z |};
     authentication :=
       Some {| username := Some "sa";
               auth_password := Some "secret";
               custom := Some {| databaseName := Some {| value := Some "main" |} |} |};
     connection := Some {| useSsl := Some true |} |}.

Definition sample_pool : ConnectionPool :=
  {| pool_config :=
       {| user := Some "sa"; password := Some "secret"; database := "main";
          server := Some "db.example"; port := Some 1433%Z;
          requestTimeout := default_connectionTimeoutMillis;
          trustServerCertificate := true; encrypt := true |} |}.

(** Execution properties with the given body and parameter list. *)
Definition sample_props (query_text : option string) (params : list JsValue)
  : PluginExecutionProps :=
  {| props_context := {| globals := ∅; preparedStatementContext := params |};
     props_datasourceConfiguration := sample_configuration;
     props_actionConfiguration := {| body := query_text; usePreparedSql := Some true |} |}.

(** A database whose catalog holds the given rows. *)
Definition catalog_driver (recordset : list CatalogRecord) : Driver :=
  {| connect_reply := fun _ _ => None;
     query_reply := fun _ _ _ => Returned [];
     catalog_reply := fun _ => Returned recordset;
     close_reply := fun _ _ => None |}.

Definition catalog_row (t c d : string) : CatalogRecord :=
  {| table_name := t; column_name := c; data_type := d |}.

(** A database that refuses every connection, and one that accepts
    connections and fails every query. *)
Definition refusing_driver : Driver :=
  {| connect_reply := fun _ _ => Some (DriverError "login failed");
     query_reply := fun _ _ _ => Returned [];
     catalog_reply := fun _ => Returned [];
     close_reply := fun _ _ => None |}.

Definition failing_query_driver : Driver :=
  {| connect_reply := fun _ _ => None;
     query_reply := fun _ _ _ => Thrown (DriverError "invalid object name");
     catalog_reply := fun _ => Thrown (DriverError "permission denied");
     close_reply := fun _ _ => None |}.

(** A configuration with no host in its endpoint. *)
Definition hostless_configuration : MsSqlDatasourceConfiguration :=
  {| endpoint := Some {| host := None; endpoint_port := Some 1433%Z |};
     authentication :=
       Some {| username := Some "sa";
               auth_password := Some "secret";
               custom := Some {| databaseName := Some {| value := Some "main" |} |} |};
     connection := None |}.

(** The [sqlConfig] that [createConnection] builds from an endpoint, an
    authentication block and the timeout, lines 117-128 (107-118 of
    [src/index.ts], where [server] is [endpoint.host] as it stands). *)
Definition sqlConfig_of (pooled : bool) (cfg : MsSqlDatasourceConfiguration)
    (ep : Endpoint) (auth : Authentication) (timeout : Z) : SqlConfig :=
  {| user := username auth;
     password := auth_password auth;
     database := default "" (databaseName_value auth);
     server := if pooled then Some (default "" (host ep)) else host ep;
     port := endpoint_port ep;
     requestTimeout := timeout;
     trustServerCertificate := true;
     encrypt :=
       match connection cfg with
       | Some c => truthy_flag (useSsl c)
       | None => false
       end |}.

(** ** Proof automation *)

(** Refutes [x ∈ l] for closed [x] and [l] whose elements all differ from
    [x] by computation. *)
Ltac other_elements H :=
  repeat (apply elem_of_cons in H as [H|H]; [vm_compute in H; discriminate H|]);
  by apply elem_of_nil in H.

(** Unfolds the effect combinators down to the driver's replies. *)
Ltac unfold_effects :=
  unfold Pooled.destroyConnection, swallow, executeQuery;
  unfold try_finally, try_catch, bind, lift, query, query_catalog, close, throw, ret.

(** * Properties *)

(** ** The binding loop *)

Section BindingLoop.

Context (bindingResolutions : gmap string JsValue).

Local Abbreviation loop := (bind_expressions bindingResolutions).

Lemma bind_expressions_app st l1 l2 :
  loop st (l1 ++ l2) = loop (loop st l1) l2.
Proof. apply foldl_app. Qed.

Lemma bind_expressions_count st l :
  bindingCount (loop st l) = bindingCount st + length l.
Proof.
  revert st. induction l as [|e l IH]; intros st; simpl.
  - lia.
  - rewrite IH. simpl. lia.
Qed.

Lemma bind_expressions_context st l :
  statementContext (loop st l)
  = statementContext st ++ (resolution_of bindingResolutions <$> l).
Proof.
  revert st. induction l as [|e l IH]; intros st; simpl.
  - by rewrite app_nil_r.
  - rewrite IH. simpl. by rewrite <- app_assoc.
Qed.

Lemma bind_expressions_untouched st l e :
  e ∉ l -> bindingResolution (loop st l) !! e = bindingResolution st !! e.
Proof.
  revert st. induction l as [|x l IH]; intros st Hni; simpl; [done|].
  apply not_elem_of_cons in Hni as [Hne Hni].
  rewrite IH by done. simpl. unfold assign_property.
  case_decide; [done|]. by rewrite lookup_insert_ne.
Qed.

(** The loop never creates a property named ["__proto__"]. *)
Lemma bind_expressions_proto st l :
  bindingResolution (loop st l) !! "__proto__" = bindingResolution st !! "__proto__".
Proof.
  revert st. induction l as [|x l IH]; intros st; simpl; [done|].
  rewrite IH. simpl. unfold assign_property.
  case_decide as Hx; [done|]. by rewrite lookup_insert_ne.
Qed.

(** After the loop an expression's text holds the placeholder of its
    last occurrence. *)
Lemma bind_expressions_last st l e :
  e ∈ l -> e <> "__proto__" ->
  bindingResolution (loop st l) !! e
  = Some (placeholder (bindingCount st + last_index e l)).
Proof.
  intros Hin Hne.
  revert st Hin. induction l as [|x l IH]; intros st Hin; [by apply elem_of_nil in Hin|].
  simpl. case_bool_decide as Hl.
  - rewrite IH by done. simpl. do 2 f_equal. lia.
  - apply elem_of_cons in Hin as [->|Hin]; [|done].
    rewrite bind_expressions_untouched by done. simpl.
    unfold assign_property. rewrite decide_False by done.
    rewrite lookup_insert_eq. do 2 f_equal. lia.
Qed.

(** What the object holds after the loop, key by key. *)
Lemma bind_expressions_lookup st l e :
  bindingResolution (loop st l) !! e
  = if bool_decide (e ∈ l /\ e <> "__proto__")
    then Some (placeholder (bindingCount st + last_index e l))
    else bindingResolution st !! e.
Proof.
  case_bool_decide as Hc.
  - destruct Hc as [Hin Hne]. by apply bind_expressions_last.
  - destruct (decide (e = "__proto__")) as [->|Hne].
    + apply bind_expressions_proto.
    + apply bind_expressions_untouched. intros Hin. by apply Hc.
Qed.

(** At the (i+1)-th turn the counter stands at i+1. *)
Lemma bind_expressions_counter l i :
  i <= length l ->
  bindingCount (loop initial_bindings (take i l)) = S i.
Proof.
  intros Hi. rewrite bind_expressions_count. simpl.
  by rewrite length_take_le.
Qed.

(** The (i+1)-th turn of the loop writes [@PARAM_(i+1)] under the text
    of the (i+1)-th occurrence. *)
Lemma bind_expressions_turn l i e :
  l !! i = Some e -> e <> "__proto__" ->
  bindingResolution (loop initial_bindings (take (S i) l)) !! e = Some (placeholder (S i)).
Proof.
  intros Hi Hne.
  rewrite (take_S_r l i e Hi), bind_expressions_app. simpl.
  unfold assign_property. rewrite decide_False by done.
  rewrite lookup_insert_eq, bind_expressions_count. simpl.
  rewrite length_take_le; [done|].
  apply lookup_lt_Some in Hi. lia.
Qed.

End BindingLoop.

(** Were a scanner to hand out the bare text [__proto__], the occurrence
    would be counted and its value pushed, but no property created. *)
Lemma bind_expressions_at_proto m :
  let st := bind_expressions m initial_bindings ["__proto__"; "x"] in
  bindingResolution st = {[ "x" := "@PARAM_2" ]}
  /\ statementContext st = [resolution_of m "__proto__"; resolution_of m "x"]
  /\ bindingCount st = 3.
Proof. done. Qed.

Lemma placeholder_inj : Inj (=) (=) placeholder.
Proof.
  intros i j H. unfold placeholder in H.
  apply String.app_inj in H. by apply (inj pretty) in H.
Qed.

Lemma param_name_inj : Inj (=) (=) param_name.
Proof.
  intros i j H. unfold param_name in H.
  apply String.app_inj in H. by apply (inj pretty) in H.
Qed.

Lemma last_index_lookup e l : e ∈ l -> l !! last_index e l = Some e.
Proof.
  induction l as [|x l IH]; intros Hin; [by apply elem_of_nil in Hin|].
  simpl. case_bool_decide as Hl; simpl; [by apply IH|].
  by apply elem_of_cons in Hin as [->|Hin].
Qed.

Lemma last_index_NoDup l i e : NoDup l -> l !! i = Some e -> last_index e l = i.
Proof.
  intros Hnd Hi.
  assert (Hin : e ∈ l) by (apply list_elem_of_lookup; eauto).
  eapply NoDup_lookup; [done| |done]. by apply last_index_lookup.
Qed.

(** ** The binding resolver *)

Section Resolver.

Context (sb : SharedBackend).

(** On the prepared path both plugins return what [resolve_prepared]
    renders, the pooled one wrapped as [{ resolved }]. *)
Lemma resolver_on_prepared_path rc m :
  truthy_flag (usePreparedSql (actionConfiguration rc)) = true ->
  property rc = "body" ->
  resolveAllBindings sb (propertyToResolve rc) (context rc)
    (default ∅ (files rc)) (escapeStrings rc) = Returned m ->
  let st := bind_expressions m initial_bindings
              (extractMustacheStrings sb (propertyToResolve rc)) in
  let rendered := renderValue sb (propertyToResolve rc) (bindingResolution st) in
  let context' := set_preparedStatementContext (context rc) (statementContext st) in
  Pooled.resolveActionConfigurationProperty sb rc
  = (Returned {| resolved := rendered |}, context')
  /\ forall base,
       Legacy.resolveActionConfigurationProperty sb base rc = (Returned rendered, context').
Proof.
  intros Hflag Hprop Hm. simpl.
  unfold Pooled.resolveActionConfigurationProperty,
    Legacy.resolveActionConfigurationProperty, resolve_prepared.
  rewrite Hflag, Hprop, Hm. simpl. done.
Qed.

(** C1. For a template with k embedded-expression occurrences, the
    resolver of either plugin on the prepared path (action marked
    [usePreparedSql], property ['body'], evaluation successful) generates
    exactly k placeholders, [@PARAM_1] to [@PARAM_k], one per turn of its
    loop and pairwise different. What it returns is [renderValue] of the
    template and of the object the loop has filled: under every expression
    text the placeholder of the text's last occurrence, and no other
    property (none under ["__proto__"], the one key an assignment to a
    plain object does not create). It leaves the context with
    [preparedStatementContext] a list of length k whose element at
    position i is the evaluated value of the occurrence that was given
    [@PARAM_i], and otherwise as it was. *)
Theorem resolver_numbers_every_occurrence rc m :
  truthy_flag (usePreparedSql (actionConfiguration rc)) = true ->
  property rc = "body" ->
  resolveAllBindings sb (propertyToResolve rc) (context rc)
    (default ∅ (files rc)) (escapeStrings rc) = Returned m ->
  let toEvals := extractMustacheStrings sb (propertyToResolve rc) in
  let k := length toEvals in
  exists resolution context',
    Pooled.resolveActionConfigurationProperty sb rc
    = (Returned {| resolved := renderValue sb (propertyToResolve rc) resolution |},
       context')
    /\ (forall base,
          Legacy.resolveActionConfigurationProperty sb base rc
          = (Returned (renderValue sb (propertyToResolve rc) resolution), context'))
    /\ (forall e,
          resolution !! e
          = if bool_decide (e ∈ toEvals /\ e <> "__proto__")
            then Some (placeholder (S (last_index e toEvals))) else None)
    /\ context' = set_preparedStatementContext (context rc) (resolution_of m <$> toEvals)
    /\ bindingCount (bind_expressions m initial_bindings toEvals) = S k
    /\ NoDup (placeholder <$> seq 1 k)
    /\ length (preparedStatementContext context') = k
    /\ forall i toEval,
         toEvals !! i = Some toEval ->
         bindingCount (bind_expressions m initial_bindings (take i toEvals)) = S i
         /\ (toEval <> "__proto__" ->
             bindingResolution (bind_expressions m initial_bindings (take (S i) toEvals))
               !! toEval = Some (placeholder (S i)))
         /\ preparedStatementContext context' !! i = Some (resolution_of m toEval).
Proof.
  intros Hflag Hprop Hm toEvals k.
  destruct (resolver_on_prepared_path rc m Hflag Hprop Hm) as [Hp Hl].
  eexists _, _. split; [exact Hp|]. split; [exact Hl|].
  fold toEvals. simpl.
  rewrite bind_expressions_count, bind_expressions_context. simpl.
  split. { intros e. by rewrite bind_expressions_lookup. }
  split; [done|]. split; [done|].
  split. { apply (NoDup_fmap_2 _), NoDup_seq. }
  split. { by rewrite length_fmap. }
  intros i toEval Hi. split; [|split].
  - apply bind_expressions_counter. apply lookup_lt_Some in Hi. lia.
  - intros Hne. by apply bind_expressions_turn.
  - by rewrite list_lookup_fmap, Hi.
Qed.

(** C9. The prepared path is taken exactly when the action is marked
    [usePreparedSql] and the property is ['body']; in every other case the
    resolver is the base class resolver applied to the unchanged
    resolution context. *)
Theorem prepared_path_iff_flag_and_body rc base :
  (truthy_flag (usePreparedSql (actionConfiguration rc)) = true
   /\ property rc = "body" ->
   Pooled.resolveActionConfigurationProperty sb rc
   = (match fst (resolve_prepared sb rc) with
      | Returned rendered => Returned {| resolved := rendered |}
      | Thrown err => Thrown err
      end, snd (resolve_prepared sb rc))
   /\ Legacy.resolveActionConfigurationProperty sb base rc = resolve_prepared sb rc)
  /\ (~ (truthy_flag (usePreparedSql (actionConfiguration rc)) = true
         /\ property rc = "body") ->
      Pooled.resolveActionConfigurationProperty sb rc
      = super_resolveActionConfigurationProperty sb rc
      /\ Legacy.resolveActionConfigurationProperty sb base rc = base rc).
Proof.
  unfold Pooled.resolveActionConfigurationProperty,
    Legacy.resolveActionConfigurationProperty.
  split.
  - intros [-> ->]. simpl.
    destruct (resolve_prepared sb rc) as [[rendered|err] context']; done.
  - intros Hnot.
    destruct (truthy_flag (usePreparedSql (actionConfiguration rc))) eqn:Hflag;
      simpl; [|done].
    destruct (String.eqb_spec (property rc) "body") as [Hprop|Hprop]; simpl; [|done].
    destruct Hnot. done.
Qed.

(** The length of the parameter list after any successful call on the
    prepared path is the number of occurrences, whatever the context held. *)
Lemma resolve_prepared_length rc rendered context' :
  resolve_prepared sb rc = (Returned rendered, context') ->
  length (preparedStatementContext context')
  = length (extractMustacheStrings sb (propertyToResolve rc)).
Proof.
  unfold resolve_prepared.
  destruct (resolveAllBindings sb _ (context rc) _ _) as [m|err]; [|done].
  intros [= _ <-]. simpl.
  rewrite bind_expressions_context. simpl. by rewrite length_fmap.
Qed.

(** C7. Each call on the prepared path, in either plugin, builds the
    parameter list from an empty one: whatever list the context held
    before, after the call it holds exactly the evaluated values of the k
    occurrences, in order. A second call on the context the first one left
    therefore again leaves a list of length k, and, when the evaluator does
    not read the parameter list, it returns the same string and leaves the
    same context. *)
Theorem resolver_resets_context_each_call rc m :
  truthy_flag (usePreparedSql (actionConfiguration rc)) = true ->
  property rc = "body" ->
  resolveAllBindings sb (propertyToResolve rc) (context rc)
    (default ∅ (files rc)) (escapeStrings rc) = Returned m ->
  let toEvals := extractMustacheStrings sb (propertyToResolve rc) in
  exists rendered context1,
    Pooled.resolveActionConfigurationProperty sb rc
    = (Returned {| resolved := rendered |}, context1)
    /\ (forall base,
          Legacy.resolveActionConfigurationProperty sb base rc
          = (Returned rendered, context1))
    /\ context1 = set_preparedStatementContext (context rc) (resolution_of m <$> toEvals)
    /\ preparedStatementContext context1 = resolution_of m <$> toEvals
    /\ length (preparedStatementContext context1) = length toEvals
    /\ (forall r2 context2,
          Pooled.resolveActionConfigurationProperty sb (with_context rc context1)
          = (Returned r2, context2) ->
          length (preparedStatementContext context2) = length toEvals)
    /\ (forall base r2 context2,
          Legacy.resolveActionConfigurationProperty sb base (with_context rc context1)
          = (Returned r2, context2) ->
          length (preparedStatementContext context2) = length toEvals)
    /\ (ignores_preparedStatementContext sb ->
        Pooled.resolveActionConfigurationProperty sb (with_context rc context1)
        = (Returned {| resolved := rendered |}, context1)
        /\ forall base,
             Legacy.resolveActionConfigurationProperty sb base (with_context rc context1)
             = (Returned rendered, context1)).
Proof.
  intros Hflag Hprop Hm toEvals.
  destruct (resolver_on_prepared_path rc m Hflag Hprop Hm) as [Hp Hl].
  eexists _, _. split; [exact Hp|]. split; [exact Hl|].
  simpl. rewrite bind_expressions_context. simpl. fold toEvals.
  split; [done|]. split; [done|]. split; [by rewrite length_fmap|].
  set (context1 := set_preparedStatementContext (context rc) (resolution_of m <$> toEvals)).
  split; [|split].
  - intros r2 context2.
    unfold Pooled.resolveActionConfigurationProperty.
    change (actionConfiguration (with_context rc context1)) with (actionConfiguration rc).
    change (property (with_context rc context1)) with (property rc).
    rewrite Hflag, Hprop. simpl.
    destruct (resolve_prepared sb (with_context rc context1))
      as [[rendered2|err] context3] eqn:Hr; [|done].
    intros [= _ <-]. by rewrite (resolve_prepared_length _ _ _ Hr).
  - intros base r2 context2.
    unfold Legacy.resolveActionConfigurationProperty.
    change (actionConfiguration (with_context rc context1)) with (actionConfiguration rc).
    change (property (with_context rc context1)) with (property rc).
    rewrite Hflag, Hprop. simpl.
    intros Hr. by rewrite (resolve_prepared_length _ _ _ Hr).
  - intros Hign.
    assert (Hm' : resolveAllBindings sb (propertyToResolve (with_context rc context1))
                    (context (with_context rc context1))
                    (default ∅ (files (with_context rc context1)))
                    (escapeStrings (with_context rc context1)) = Returned m).
    { simpl. unfold context1. rewrite Hign. exact Hm. }
    destruct (resolver_on_prepared_path (with_context rc context1) m Hflag Hprop Hm')
      as [Hp2 Hl2].
    split; [rewrite Hp2|intros base; rewrite Hl2]; simpl;
      change (propertyToResolve (with_context rc context1)) with (propertyToResolve rc);
      rewrite !bind_expressions_context; simpl; done.
Qed.

(** When the evaluation fails the resolver fails with the same error and
    the context keeps the parameter list it had. *)
Lemma resolver_failure_leaves_context rc err :
  truthy_flag (usePreparedSql (actionConfiguration rc)) = true ->
  property rc = "body" ->
  resolveAllBindings sb (propertyToResolve rc) (context rc)
    (default ∅ (files rc)) (escapeStrings rc) = Thrown err ->
  Pooled.resolveActionConfigurationProperty sb rc = (Thrown err, context rc).
Proof.
  intros Hflag Hprop Herr.
  unfold Pooled.resolveActionConfigurationProperty, resolve_prepared.
  by rewrite Hflag, Hprop, Herr.
Qed.

(** Whatever the renderer: the resolution that the resolver hands to
    [renderValue] holds, under every expression text of the template but
    ["__proto__"], the placeholder of the text's last occurrence, and
    nothing else. *)
Lemma resolver_hands_last_placeholders rc m :
  truthy_flag (usePreparedSql (actionConfiguration rc)) = true ->
  property rc = "body" ->
  resolveAllBindings sb (propertyToResolve rc) (context rc)
    (default ∅ (files rc)) (escapeStrings rc) = Returned m ->
  let toEvals := extractMustacheStrings sb (propertyToResolve rc) in
  exists resolution context',
    Pooled.resolveActionConfigurationProperty sb rc
    = (Returned {| resolved := renderValue sb (propertyToResolve rc) resolution |},
       context')
    /\ forall e,
         resolution !! e
         = if bool_decide (e ∈ toEvals /\ e <> "__proto__")
           then Some (placeholder (S (last_index e toEvals))) else None.
Proof.
  intros Hflag Hprop Hm toEvals.
  destruct (resolver_on_prepared_path rc m Hflag Hprop Hm) as [Hp _].
  eexists _, _. split; [exact Hp|]. fold toEvals. intros e.
  by rewrite bind_expressions_lookup.
Qed.

End Resolver.

(** ** Rendering with the spec's scanner and renderer *)

Lemma elem_of_expressions toks e :
  e ∈ Mustache.expressions toks <-> Mustache.TExpr e ∈ toks.
Proof.
  unfold Mustache.expressions. rewrite list_elem_of_omap. split.
  - intros [[s|s] [Hin Heq]]; [done|]. by injection Heq as ->.
  - intros Hin. by exists (Mustache.TExpr e).
Qed.

(** One step of the scanner at a template of two characters or more. *)
Lemma scan_two_characters inside acc c1 c2 rest :
  Mustache.scan inside acc (String c1 (String c2 rest))
  = if negb inside && Ascii.eqb c1 "{"%char && Ascii.eqb c2 "{"%char
    then Mustache.TText acc :: Mustache.scan true "" rest
    else if inside && Ascii.eqb c1 "}"%char && Ascii.eqb c2 "}"%char
    then Mustache.TExpr ("{{" +:+ acc +:+ "}}") :: Mustache.scan false "" rest
    else Mustache.scan inside (acc +:+ String c1 "") (String c2 rest).
Proof. reflexivity. Qed.

(** Every expression the scanner cuts out is a delimited fragment. *)
Lemma scan_expressions_delimited n s inside acc e :
  String.length s <= n ->
  e ∈ Mustache.expressions (Mustache.scan inside acc s) ->
  exists inner, e = "{{" +:+ inner +:+ "}}".
Proof.
  revert s inside acc.
  induction n as [|n IH]; intros s inside acc Hlen Hin.
  - destruct s as [|c1 rest]; simpl in Hlen; [|lia].
    by apply elem_of_nil in Hin.
  - destruct s as [|c1 [|c2 rest]].
    + by apply elem_of_nil in Hin.
    + by apply elem_of_nil in Hin.
    + rewrite scan_two_characters in Hin. simpl in Hlen.
      destruct (negb inside && Ascii.eqb c1 "{"%char && Ascii.eqb c2 "{"%char).
      { apply (IH rest true ""); [lia|exact Hin]. }
      destruct (inside && Ascii.eqb c1 "}"%char && Ascii.eqb c2 "}"%char).
      { apply elem_of_cons in Hin as [->|Hin]; [by exists acc|].
        apply (IH rest false ""); [lia|exact Hin]. }
      apply (IH (String c2 rest) inside (acc +:+ String c1 "")); [simpl; lia|exact Hin].
Qed.

(** So no expression of a template is the text ["__proto__"], the one key
    under which the resolver's object takes no property. *)
Lemma expressions_not_proto template e :
  e ∈ Mustache.expressions (Mustache.tokenize template) -> e <> "__proto__".
Proof.
  intros Hin.
  destruct (scan_expressions_delimited _ _ _ _ _ (le_n _) Hin) as [inner ->].
  discriminate.
Qed.

(** Rendering with the resolution the loop has built puts, at every
    occurrence, the placeholder of the last occurrence of the same text. *)
Lemma render_after_loop m template :
  let toks := Mustache.tokenize template in
  Mustache.concat_strings
    (Mustache.render_token
       (bindingResolution (bind_expressions m initial_bindings (Mustache.expressions toks)))
       <$> toks)
  = Mustache.render_by
      (fun e => placeholder (S (last_index e (Mustache.expressions toks)))) toks.
Proof.
  intros toks. unfold Mustache.render_by. f_equal.
  apply list_fmap_ext. intros i [s|e] Hi; simpl; [done|].
  assert (Hin : e ∈ Mustache.expressions toks).
  { apply elem_of_expressions, list_elem_of_lookup. eauto. }
  rewrite bind_expressions_last; [done|done|].
  by apply (expressions_not_proto template).
Qed.

(** A rendering by text that numbers the occurrences in order is the
    per-occurrence rendering. *)
Lemma render_by_per_occurrence f toks n :
  (forall i e, Mustache.expressions toks !! i = Some e -> f e = placeholder (n + i)) ->
  Mustache.render_by f toks = Mustache.render_per_occurrence n toks.
Proof.
  revert n. induction toks as [|[s|e] toks IH]; intros n Hf; [done| |].
  - unfold Mustache.render_by in *. simpl. f_equal. by apply IH.
  - unfold Mustache.render_by in *. simpl. f_equal.
    + rewrite (Hf 0 e); [|done]. f_equal. lia.
    + apply IH. intros i e' Hi. rewrite (Hf (S i) e'); [|done]. f_equal. lia.
Qed.

(** C2, as the code has it. Every occurrence gets a number and a slot of
    its own in the parameter list, also when its text occurred before (no
    deduplication). The rendered SQL replaces every occurrence by the
    placeholder of the LAST occurrence of the same text; it is the
    per-occurrence rendering ([@PARAM_i] at the i-th occurrence) when no
    text occurs twice. The resolver of [src/index.ts] returns the same
    string and leaves the same context. *)
Theorem resolver_renders_last_placeholder_per_text evaluate base normalize rc m :
  truthy_flag (usePreparedSql (actionConfiguration rc)) = true ->
  property rc = "body" ->
  evaluate (propertyToResolve rc) (context rc) (default ∅ (files rc)) (escapeStrings rc)
  = Returned m ->
  let toks := Mustache.tokenize (propertyToResolve rc) in
  let toEvals := Mustache.expressions toks in
  exists context',
    Pooled.resolveActionConfigurationProperty
      (mustache_backend evaluate base normalize) rc
    = (Returned {| resolved :=
                     Mustache.render_by
                       (fun e => placeholder (S (last_index e toEvals))) toks |},
       context')
    /\ preparedStatementContext context' = resolution_of m <$> toEvals
    /\ (forall i toEval,
          toEvals !! i = Some toEval ->
          bindingResolution (bind_expressions m initial_bindings (take (S i) toEvals))
            !! toEval = Some (placeholder (S i)))
    /\ (NoDup toEvals ->
        Mustache.render_by (fun e => placeholder (S (last_index e toEvals))) toks
        = Mustache.render_per_occurrence 1 toks)
    /\ (forall legacy_base,
          Legacy.resolveActionConfigurationProperty
            (mustache_backend evaluate base normalize) legacy_base rc
          = (Returned
               (Mustache.render_by
                  (fun e => placeholder (S (last_index e toEvals))) toks),
             context')).
Proof.
  intros Hflag Hprop Hm toks toEvals.
  destruct (resolver_on_prepared_path (mustache_backend evaluate base normalize)
              rc m Hflag Hprop Hm) as [Hp Hl].
  eexists. split.
  - rewrite Hp. simpl. unfold Mustache.renderValue, Mustache.extractMustacheStrings.
    by rewrite render_after_loop.
  - simpl. rewrite bind_expressions_context. simpl.
    split; [done|]. split; [|split].
    + intros i toEval Hi. apply bind_expressions_turn; [done|].
      apply (expressions_not_proto (propertyToResolve rc)).
      apply list_elem_of_lookup. eauto.
    + intros Hnd. apply render_by_per_occurrence. intros i e Hi.
      by rewrite (last_index_NoDup _ i e Hnd Hi).
    + intros legacy_base. rewrite Hl. simpl.
      unfold Mustache.renderValue, Mustache.extractMustacheStrings.
      rewrite render_after_loop, bind_expressions_context. done.
Qed.

(** The numbering at the template of the specification's example, in
    both plugins: two occurrences, two parameters, ["ann"] second and under
    [@PARAM_2] in the object handed to the renderer. *)
Lemma resolver_numbers_every_occurrence_witness :
  exists resolution context',
    Pooled.resolveActionConfigurationProperty spec_backend two_bindings
    = (Returned {| resolved :=
                     renderValue spec_backend (propertyToResolve two_bindings)
                       resolution |},
       context')
    /\ Legacy.resolveActionConfigurationProperty spec_backend
         (fun rc => (Returned "", context rc)) two_bindings
       = (Returned (renderValue spec_backend (propertyToResolve two_bindings) resolution),
          context')
    /\ resolution !! "{{name}}" = Some "@PARAM_2"
    /\ resolution !! "__proto__" = None
    /\ length (preparedStatementContext context') = 2
    /\ preparedStatementContext context' !! 1 = Some (JsString "ann").
Proof.
  destruct (resolver_numbers_every_occurrence spec_backend two_bindings
              (list_to_map [("{{id}}", JsNumber 5); ("{{name}}", JsString "ann")])
              eq_refl eq_refl eq_refl)
    as (resolution & context' & Hp & Hl & Hres & _ & _ & _ & Hlen & Hat).
  exists resolution, context'. split; [exact Hp|]. split; [exact (Hl _)|].
  split; [exact (eq_trans (Hres "{{name}}") eq_refl)|].
  split; [exact (eq_trans (Hres "__proto__") eq_refl)|].
  split; [exact Hlen|].
  exact (proj2 (proj2 (Hat 1 "{{name}}" eq_refl))).
Defined.

(** The same template resolved twice, by either plugin, in a context that
    held a stale parameter: both calls leave [[5, "ann"]]. *)
Lemma resolver_resets_context_each_call_witness :
  exists rendered context1,
    Pooled.resolveActionConfigurationProperty spec_backend two_bindings
    = (Returned {| resolved := rendered |}, context1)
    /\ Legacy.resolveActionConfigurationProperty spec_backend
         (fun rc => (Returned "", context rc)) two_bindings
       = (Returned rendered, context1)
    /\ preparedStatementContext (context two_bindings) = [JsNull]
    /\ preparedStatementContext context1 = [JsNumber 5; JsString "ann"]
    /\ Pooled.resolveActionConfigurationProperty spec_backend
         (with_context two_bindings context1)
       = (Returned {| resolved := rendered |}, context1)
    /\ Legacy.resolveActionConfigurationProperty spec_backend
         (fun rc => (Returned "", context rc)) (with_context two_bindings context1)
       = (Returned rendered, context1).
Proof.
  destruct (resolver_resets_context_each_call spec_backend two_bindings
              (list_to_map [("{{id}}", JsNumber 5); ("{{name}}", JsString "ann")])
              eq_refl eq_refl eq_refl)
    as (rendered & context1 & Hp & Hl & _ & Hpsc & _ & _ & _ & Hagain).
  assert (Hign : ignores_preparedStatementContext spec_backend).
  { intros template c l fs esc. reflexivity. }
  exists rendered, context1. split; [exact Hp|]. split; [exact (Hl _)|].
  split; [reflexivity|]. split; [exact Hpsc|].
  split; [exact (proj1 (Hagain Hign))|exact (proj2 (Hagain Hign) _)].
Defined.

(** A text that occurs twice: two slots, one placeholder in the SQL. *)
Lemma resolver_renders_last_placeholder_per_text_witness :
  exists context',
    Pooled.resolveActionConfigurationProperty spec_backend repeated_binding
    = (Returned {| resolved := "SELECT * FROM t WHERE a = @PARAM_2 OR b = @PARAM_2" |},
       context')
    /\ preparedStatementContext context' = [JsNumber 5; JsNumber 5].
Proof.
  destruct (resolver_renders_last_placeholder_per_text
              Mustache.resolveAllBindings
              (super_resolveActionConfigurationProperty spec_backend)
              (normalizeTableColumnNames spec_backend)
              repeated_binding
              (list_to_map [("{{id}}", JsNumber 5); ("{{id}}", JsNumber 5)])
              eq_refl eq_refl eq_refl)
    as (context' & Hp & Hpsc & _).
  exists context'. split; [exact Hp|exact Hpsc].
Defined.

(** C2 as stated fails where a text occurs twice: for
    [a = {{id}} OR b = {{id}}] the resolver renders [@PARAM_2] at both
    occurrences, not [@PARAM_1] and then [@PARAM_2]. *)
Lemma repeated_text_is_not_rendered_per_occurrence :
  fst (Pooled.resolveActionConfigurationProperty spec_backend repeated_binding)
  = Returned {| resolved := "SELECT * FROM t WHERE a = @PARAM_2 OR b = @PARAM_2" |}
  /\ Mustache.render_per_occurrence 1
       (Mustache.tokenize "SELECT * FROM t WHERE a = {{id}} OR b = {{id}}")
     = "SELECT * FROM t WHERE a = @PARAM_1 OR b = @PARAM_2"
  /\ fst (Pooled.resolveActionConfigurationProperty spec_backend repeated_binding)
     <> Returned {| resolved :=
                      Mustache.render_per_occurrence 1
                        (Mustache.tokenize
                           "SELECT * FROM t WHERE a = {{id}} OR b = {{id}}") |}.
Proof.
  split; [by vm_compute|]. split; [by vm_compute|].
  vm_compute. intros H. discriminate H.
Qed.

(** ** Connection acquisition *)

Lemma truthy_string_false s :
  truthy_string s = false <-> s = None \/ s = Some "".
Proof.
  destruct s as [s|]; simpl.
  - destruct (String.eqb_spec s "") as [->|Hne]; simpl.
    + split; [by right|done].
    + split; [done|]. intros [?|[= ?]]; done.
  - split; [by left|done].
Qed.

(** C4. Acquisition checks the endpoint, then the authentication block,
    then the database name (absent or empty), and stops at the first that
    is missing; each failure is an [IntegrationError] of its own that names
    the field and the plugin, and nothing has reached the driver when it is
    thrown. Only a configuration that passes all three leads to a
    connection attempt, the first contact with the driver. *)
Theorem createConnection_validates_in_order cfg timeout drv tr :
  (endpoint cfg = None ->
   Pooled.createConnection cfg timeout drv tr
   = (Thrown (missing_field_error "Endpoint"), tr)
   /\ Legacy.createConnection cfg timeout drv tr
      = (Thrown (missing_field_error "Endpoint"), tr))
  /\ (is_Some (endpoint cfg) -> authentication cfg = None ->
      Pooled.createConnection cfg timeout drv tr
      = (Thrown (missing_field_error "Authentication"), tr)
      /\ Legacy.createConnection cfg timeout drv tr
         = (Thrown (missing_field_error "Authentication"), tr))
  /\ (is_Some (endpoint cfg) ->
      forall auth, authentication cfg = Some auth ->
      databaseName_value auth = None \/ databaseName_value auth = Some "" ->
      Pooled.createConnection cfg timeout drv tr
      = (Thrown (missing_field_error "Database"), tr)
      /\ Legacy.createConnection cfg timeout drv tr
         = (Thrown (missing_field_error "Database"), tr))
  /\ (is_Some (endpoint cfg) ->
      forall auth db, authentication cfg = Some auth ->
      databaseName_value auth = Some db -> db <> "" ->
      (exists sqlConfig,
         database sqlConfig = db
         /\ snd (Pooled.createConnection cfg timeout drv tr) = tr ++ [EvConnect sqlConfig])
      /\ exists sqlConfig,
         database sqlConfig = db
         /\ snd (Legacy.createConnection cfg timeout drv tr) = tr ++ [EvConnect sqlConfig])
  /\ NoDup [missing_field_error "Endpoint"; missing_field_error "Authentication";
            missing_field_error "Database"]
  /\ forall field,
       message (missing_field_error field)
       = field +:+ " not specified for " +:+ pluginName +:+ " step".
Proof.
  unfold Pooled.createConnection, Legacy.createConnection.
  split; [by intros ->|].
  split; [by intros [ep ->] ->|].
  split.
  { intros [ep ->] auth -> Hdb. apply truthy_string_false in Hdb. by rewrite Hdb. }
  split.
  - intros [ep ->] auth db -> Hdb Hne.
    assert (Htruthy : truthy_string (databaseName_value auth) = true).
    { rewrite Hdb. simpl. by destruct (String.eqb_spec db "") as [->|_]. }
    rewrite Htruthy, Hdb. simpl.
    unfold try_catch, connect, throw.
    split; eexists; (split; [|destruct (connect_reply drv tr _); reflexivity]); done.
  - split; [|done].
    repeat (apply NoDup_cons; split; [intros H; other_elements H|]).
    apply NoDup_nil_2.
Qed.

Lemma createConnection_same_connect cfg timeout d1 d2 tr :
  connect_reply d1 = connect_reply d2 ->
  Pooled.createConnection cfg timeout d1 tr = Pooled.createConnection cfg timeout d2 tr
  /\ Legacy.createConnection cfg timeout d1 tr = Legacy.createConnection cfg timeout d2 tr.
Proof.
  intros Heq. unfold Pooled.createConnection, Legacy.createConnection.
  destruct (endpoint cfg); [|done].
  destruct (authentication cfg); [|done].
  destruct (negb _); [done|].
  unfold try_catch, connect. by rewrite Heq.
Qed.

(** ** Query execution *)

Lemma bind_params_inputs request n params :
  bind_params request n params
  = ({| inputs := inputs request ++ imap (fun i v => (param_name (n + i), v)) params |},
     n + length params).
Proof.
  unfold bind_params. revert request n.
  induction params as [|v params IH]; intros request n; simpl.
  - rewrite app_nil_r. destruct request. simpl. f_equal. lia.
  - rewrite IH. simpl. rewrite <- app_assoc. simpl.
    replace (n + 0) with n by lia.
    replace (n + S (length params)) with (S (n + length params)) by lia.
    do 4 f_equal.
    apply imap_ext. intros i x _. simpl. do 2 f_equal. lia.
Qed.

Lemma isEmpty_false_body query_text :
  isEmpty query_text = false ->
  exists q, query_text = Some q /\ q <> "" /\ falsy_string query_text = false.
Proof.
  destruct query_text as [q|]; simpl; [|done].
  intros Hq. exists q. split; [done|]. unfold falsy_string. simpl. rewrite Hq.
  split; [|done]. intros ->. done.
Qed.

(** With a body that is not empty [executePooled] sends one query: the
    SQL text with the context's parameters bound under [PARAM_1],
    [PARAM_2], ... *)
Lemma executePooled_sends sb props conn drv tr :
  isEmpty (body (props_actionConfiguration props)) = false ->
  snd (Pooled.executePooled sb props conn drv tr)
  = tr ++ [EvQuery (imap (fun i v => (param_name (S i), v))
                      (preparedStatementContext (props_context props)))
             (default "" (body (props_actionConfiguration props)))].
Proof.
  intros Hbody.
  destruct (isEmpty_false_body _ Hbody) as (q & Hq & Hne & Hfalsy).
  unfold Pooled.executePooled. rewrite Hfalsy, Hbody. simpl.
  rewrite bind_params_inputs. simpl.
  unfold_effects. simpl.
  by destruct (query_reply drv tr _ _).
Qed.

(** C5. With a body that is not empty, the values of the context's
    parameter list are bound in order, the i-th under [PARAM_i], on one
    request, and the SQL text is then sent once with exactly these
    inputs; [PARAM_i] is the name behind the resolver's placeholder
    [@PARAM_i]. *)
Theorem parameters_bound_in_placeholder_order sb props conn drv tr :
  isEmpty (body (props_actionConfiguration props)) = false ->
  let params := preparedStatementContext (props_context props) in
  let bound := imap (fun i v => (param_name (S i), v)) params in
  let sql := default "" (body (props_actionConfiguration props)) in
  snd (Pooled.executePooled sb props conn drv tr) = tr ++ [EvQuery bound sql]
  /\ (forall c tr1,
        Legacy.createConnection (props_datasourceConfiguration props)
          default_connectionTimeoutMillis drv tr = (Returned c, tr1) ->
        snd (Legacy.execute sb props drv tr) = tr1 ++ [EvQuery bound sql; EvClose c])
  /\ length bound = length params
  /\ forall i v,
       params !! i = Some v ->
       bound !! i = Some (param_name (S i), v)
       /\ placeholder (S i) = "@" +:+ param_name (S i).
Proof.
  intros Hbody params bound sql.
  destruct (isEmpty_false_body _ Hbody) as (q & Hq & Hne & Hfalsy).
  split; [|split; [|split]].
  - by apply executePooled_sends.
  - intros c tr1 Hacq. unfold Legacy.execute, Legacy.try_with_connection.
    rewrite Hacq, Hbody. rewrite bind_params_inputs. simpl.
    unfold_effects. simpl.
    destruct (query_reply drv tr1 _ _); simpl;
      match goal with |- context [close_reply drv ?t c] =>
        destruct (close_reply drv t c) end; simpl; by rewrite <- app_assoc.
  - unfold bound. by rewrite length_imap.
  - intros i v Hi. split; [|done].
    unfold bound. by rewrite list_lookup_imap, Hi.
Qed.

(** C3, as the code has it. An empty body, absent or of length 0, is
    answered with a fresh [ExecutionOutput] and no query is sent: the
    pooled plugin does nothing at all on the connection it was handed; the
    plugin of [src/index.ts] has acquired its connection before it looks
    at the body and only closes it again (and fails, with the acquisition's
    error wrapped, when the acquisition fails). *)
Theorem empty_body_sends_no_query sb props conn drv tr :
  isEmpty (body (props_actionConfiguration props)) = true ->
  Pooled.executePooled sb props conn drv tr = (Returned new_ExecutionOutput, tr)
  /\ (forall c tr1,
        Legacy.createConnection (props_datasourceConfiguration props)
          default_connectionTimeoutMillis drv tr = (Returned c, tr1) ->
        Legacy.execute sb props drv tr = (Returned new_ExecutionOutput, tr1 ++ [EvClose c]))
  /\ (forall err tr1,
        Legacy.createConnection (props_datasourceConfiguration props)
          default_connectionTimeoutMillis drv tr = (Thrown err, tr1) ->
        Legacy.execute sb props drv tr
        = (Thrown (IntegrationError (pluginName +:+ " query failed, " +:+ message err)),
           tr1)).
Proof.
  intros Hbody. split; [|split].
  - unfold Pooled.executePooled. rewrite Hbody. by rewrite orb_true_r.
  - intros c tr1 Hacq. unfold Legacy.execute, Legacy.try_with_connection.
    rewrite Hacq, Hbody.
    unfold_effects. simpl.
    by destruct (close_reply drv tr1 c).
  - intros err tr1 Hacq. unfold Legacy.execute, Legacy.try_with_connection.
    by rewrite Hacq.
Qed.

(** The resolved example executed with its two parameters. *)
Lemma parameters_bound_in_placeholder_order_witness :
  snd (Pooled.executePooled spec_backend
         (sample_props (Some "SELECT * FROM t WHERE id = @PARAM_1 AND name = @PARAM_2")
            [JsNumber 5; JsString "ann"])
         sample_pool quiet_driver [])
  = [EvQuery [("PARAM_1", JsNumber 5); ("PARAM_2", JsString "ann")]
       "SELECT * FROM t WHERE id = @PARAM_1 AND name = @PARAM_2"].
Proof.
  exact (proj1 (parameters_bound_in_placeholder_order spec_backend
                  (sample_props
                     (Some "SELECT * FROM t WHERE id = @PARAM_1 AND name = @PARAM_2")
                     [JsNumber 5; JsString "ann"])
                  sample_pool quiet_driver [] eq_refl)).
Defined.

(** An empty body in the pooled plugin, an absent one in [src/index.ts]. *)
Lemma empty_body_sends_no_query_witness :
  Pooled.executePooled spec_backend (sample_props (Some "") [JsNumber 5])
    sample_pool quiet_driver []
  = (Returned new_ExecutionOutput, [])
  /\ Legacy.execute spec_backend (sample_props None [JsNumber 5]) quiet_driver []
     = (Returned new_ExecutionOutput,
        [EvConnect (pool_config sample_pool); EvClose sample_pool]).
Proof.
  split.
  - exact (proj1 (empty_body_sends_no_query spec_backend
                    (sample_props (Some "") [JsNumber 5]) sample_pool quiet_driver []
                    eq_refl)).
  - exact (proj1 (proj2 (empty_body_sends_no_query spec_backend
                           (sample_props None [JsNumber 5]) sample_pool quiet_driver []
                           eq_refl))
             sample_pool [EvConnect (pool_config sample_pool)] eq_refl).
Defined.

(** C3 as stated fails twice. A body of blanks is not empty for
    [isEmpty]: it is sent to the database as a query. And the plugin of
    [src/index.ts] has connected before it finds the body empty. *)
Lemma blank_body_is_sent_and_index_ts_connects_first :
  snd (Pooled.executePooled spec_backend (sample_props (Some "   ") [])
         sample_pool quiet_driver [])
  = [EvQuery [] "   "]
  /\ snd (Legacy.execute spec_backend (sample_props (Some "   ") []) quiet_driver [])
     = [EvConnect (pool_config sample_pool); EvQuery [] "   "; EvClose sample_pool]
  /\ snd (Legacy.execute spec_backend (sample_props (Some "") []) quiet_driver [])
     = [EvConnect (pool_config sample_pool); EvClose sample_pool].
Proof. by vm_compute. Qed.

(** ** Release of the connection *)

Lemma not_close_in_query sql ins c : EvClose c ∉ [EvQuery ins sql].
Proof. intros H. apply list_elem_of_singleton in H. discriminate H. Qed.

(** A block that sends [during] and does not depend on how closes end,
    followed by [finally { close(conn) }] with the close's failure
    swallowed: the close comes last, the block's outcome stands. *)
Lemma try_finally_close {A : Type} (block : M A) conn during :
  (forall drv tr, snd (block drv tr) = tr ++ during) ->
  (forall d1 d2 tr, same_but_close d1 d2 -> block d1 tr = block d2 tr) ->
  forall drv tr,
    try_finally block (swallow (close conn)) drv tr
    = (fst (block drv tr), tr ++ during ++ [EvClose conn])
    /\ forall drv', same_but_close drv drv' ->
         try_finally block (swallow (close conn)) drv' tr
         = try_finally block (swallow (close conn)) drv tr.
Proof.
  intros Htrace Hsame drv tr.
  assert (Hrun : forall d, try_finally block (swallow (close conn)) d tr
                           = (fst (block d tr), tr ++ during ++ [EvClose conn])).
  { intros d. unfold_effects. specialize (Htrace d tr).
    destruct (block d tr) as [r tr']. simpl in *. subst tr'.
    destruct (close_reply d (tr ++ during) conn); simpl; by rewrite <- app_assoc. }
  split; [apply Hrun|].
  intros drv' Hd. rewrite !Hrun. by rewrite (Hsame drv drv' tr Hd).
Qed.

Lemma catalog_block_trace drv tr handler :
  snd (try_catch
         (let* resp := executeQuery (query_catalog catalog_sql) in lift (build_schema resp))
         (fun err : JsError => throw (handler err)) drv tr)
  = tr ++ [EvQuery [] catalog_sql].
Proof.
  unfold_effects. simpl.
  destruct (catalog_reply drv tr) as [resp|err]; simpl; [|done].
  by destruct (build_schema resp).
Qed.

Lemma catalog_block_same d1 d2 tr handler :
  same_but_close d1 d2 ->
  try_catch
    (let* resp := executeQuery (query_catalog catalog_sql) in lift (build_schema resp))
    (fun err : JsError => throw (handler err)) d1 tr
  = try_catch
      (let* resp := executeQuery (query_catalog catalog_sql) in lift (build_schema resp))
      (fun err : JsError => throw (handler err)) d2 tr.
Proof. intros (_ & _ & Hcat). unfold_effects. simpl. by rewrite Hcat. Qed.

Lemma probe_block_trace conn drv tr handler :
  snd (try_catch
         (let* _ := executeQuery (query (new_request conn) test_sql) in ret tt)
         (fun err : JsError => throw (handler err)) drv tr)
  = tr ++ [EvQuery [] test_sql].
Proof.
  unfold_effects. simpl. by destruct (query_reply drv tr [] test_sql).
Qed.

Lemma probe_block_same conn d1 d2 tr handler :
  same_but_close d1 d2 ->
  try_catch
    (let* _ := executeQuery (query (new_request conn) test_sql) in ret tt)
    (fun err : JsError => throw (handler err)) d1 tr
  = try_catch
      (let* _ := executeQuery (query (new_request conn) test_sql) in ret tt)
      (fun err : JsError => throw (handler err)) d2 tr.
Proof. intros (_ & Hq & _). unfold_effects. simpl. by rewrite Hq. Qed.

Lemma not_close_in_sent props c : EvClose c ∉ sent_by_execute props.
Proof.
  unfold sent_by_execute. destruct (isEmpty _).
  - apply not_elem_of_nil.
  - apply not_close_in_query.
Qed.

(** With a pooled connection in hand, or one acquired inside the [try]:
    the shape both plugins share once the acquisition has returned. *)
Lemma releases_after_acquisition {A : Type} (acquire : M ConnectionPool)
    (operation : M A) (block : ConnectionPool -> M A) (during : list Event) :
  (forall d1 d2 tr, same_but_close d1 d2 -> acquire d1 tr = acquire d2 tr) ->
  (forall drv tr conn tr1,
     acquire drv tr = (Returned conn, tr1) ->
     operation drv tr = try_finally (block conn) (swallow (close conn)) drv tr1) ->
  (forall conn drv tr, snd (block conn drv tr) = tr ++ during) ->
  (forall conn d1 d2 tr, same_but_close d1 d2 -> block conn d1 tr = block conn d2 tr) ->
  (forall c, EvClose c ∉ during) ->
  releases_on_every_exit acquire operation.
Proof.
  intros Hacq_same Hshape Htrace Hsame Hnoclose drv tr conn tr1 Hacq.
  destruct (try_finally_close (block conn) conn during (Htrace conn) (Hsame conn) drv tr1)
    as [Hrun Hany].
  split.
  - exists during. split; [|done]. by rewrite (Hshape _ _ _ _ Hacq), Hrun.
  - intros drv' Hd.
    assert (Hacq' : acquire drv' tr = (Returned conn, tr1)).
    { by rewrite <- (Hacq_same drv drv' tr Hd). }
    rewrite (Hshape _ _ _ _ Hacq), (Hshape _ _ _ _ Hacq'). by apply Hany.
Qed.

Lemma pooled_shape {A : Type} cfg (rest : ConnectionPool -> M A) drv tr conn tr1 :
  Pooled.createConnection cfg default_connectionTimeoutMillis drv tr = (Returned conn, tr1) ->
  (let* conn := Pooled.createConnection cfg default_connectionTimeoutMillis in rest conn)
    drv tr
  = rest conn drv tr1.
Proof. intros Hacq. unfold bind. by rewrite Hacq. Qed.

Lemma legacy_shape {A : Type} cfg (block : ConnectionPool -> M A) handler release
    drv tr conn tr1 :
  Legacy.createConnection cfg default_connectionTimeoutMillis drv tr = (Returned conn, tr1) ->
  Legacy.try_with_connection
    (Legacy.createConnection cfg default_connectionTimeoutMillis) block handler release
    drv tr
  = try_finally (try_catch (block conn) handler) (release conn) drv tr1.
Proof. intros Hacq. unfold Legacy.try_with_connection. by rewrite Hacq. Qed.

Lemma execute_block_trace sb props conn drv tr :
  snd (try_catch
         (let query_text := body (props_actionConfiguration props) in
          let ret_ := new_ExecutionOutput in
          if isEmpty query_text then ret ret_
          else
            let request := new_request conn in
            let paramCount := 1 in
            let '(request, _) :=
              bind_params request paramCount
                (preparedStatementContext (props_context props)) in
            let* result := query request (default "" query_text) in
            ret {| output := Some (normalizeTableColumnNames sb result) |})
         (fun err =>
            throw (IntegrationError (pluginName +:+ " query failed, " +:+ message err)))
         drv tr)
  = tr ++ sent_by_execute props.
Proof.
  unfold sent_by_execute. simpl. destruct (isEmpty _).
  - unfold_effects. simpl. by rewrite app_nil_r.
  - rewrite bind_params_inputs. unfold_effects. simpl.
    by destruct (query_reply drv tr _ _).
Qed.

Lemma execute_block_same sb props conn d1 d2 tr :
  same_but_close d1 d2 ->
  try_catch
    (let query_text := body (props_actionConfiguration props) in
     let ret_ := new_ExecutionOutput in
     if isEmpty query_text then ret ret_
     else
       let request := new_request conn in
       let paramCount := 1 in
       let '(request, _) :=
         bind_params request paramCount
           (preparedStatementContext (props_context props)) in
       let* result := query request (default "" query_text) in
       ret {| output := Some (normalizeTableColumnNames sb result) |})
    (fun err =>
       throw (IntegrationError (pluginName +:+ " query failed, " +:+ message err)))
    d1 tr
  = try_catch
      (let query_text := body (props_actionConfiguration props) in
       let ret_ := new_ExecutionOutput in
       if isEmpty query_text then ret ret_
       else
         let request := new_request conn in
         let paramCount := 1 in
         let '(request, _) :=
           bind_params request paramCount
             (preparedStatementContext (props_context props)) in
         let* result := query request (default "" query_text) in
         ret {| output := Some (normalizeTableColumnNames sb result) |})
      (fun err =>
         throw (IntegrationError (pluginName +:+ " query failed, " +:+ message err)))
      d2 tr.
Proof.
  intros (_ & Hq & _). simpl. destruct (isEmpty _); [done|].
  rewrite bind_params_inputs. unfold_effects. simpl. by rewrite Hq.
Qed.

(** C8. Every operation that acquires a connection itself, [metadata]
    and [test] of both plugins and [execute] of [src/index.ts], closes
    that connection on every exit once it has acquired it: the close is
    the last call the operation makes, it is made exactly once, whether
    the query and its processing returned or threw, and how the close
    ends changes nothing of the operation's outcome. (The close is
    started in the [finally] block; the code does not await it.) *)
Theorem connection_released_on_every_exit sb cfg props :
  releases_on_every_exit
    (Pooled.createConnection cfg default_connectionTimeoutMillis) (Pooled.metadata cfg)
  /\ releases_on_every_exit
       (Pooled.createConnection cfg default_connectionTimeoutMillis) (Pooled.test cfg)
  /\ releases_on_every_exit
       (Legacy.createConnection (props_datasourceConfiguration props)
          default_connectionTimeoutMillis)
       (Legacy.execute sb props)
  /\ releases_on_every_exit
       (Legacy.createConnection cfg default_connectionTimeoutMillis) (Legacy.metadata cfg)
  /\ releases_on_every_exit
       (Legacy.createConnection cfg default_connectionTimeoutMillis) (Legacy.test cfg).
Proof.
  split; [|split; [|split; [|split]]].
  - eapply releases_after_acquisition with (during := [EvQuery [] catalog_sql]).
    + intros d1 d2 tr (Hc & _). by apply createConnection_same_connect.
    + intros drv tr conn tr1 Hacq. unfold Pooled.metadata.
      by rewrite (pooled_shape cfg _ drv tr conn tr1 Hacq).
    + intros conn drv tr. apply catalog_block_trace.
    + intros conn d1 d2 tr Hd. by apply catalog_block_same.
    + intros c. apply not_close_in_query.
  - eapply releases_after_acquisition with (during := [EvQuery [] test_sql]).
    + intros d1 d2 tr (Hc & _). by apply createConnection_same_connect.
    + intros drv tr conn tr1 Hacq. unfold Pooled.test.
      by rewrite (pooled_shape cfg _ drv tr conn tr1 Hacq).
    + intros conn drv tr. apply probe_block_trace.
    + intros conn d1 d2 tr Hd. by apply probe_block_same.
    + intros c. apply not_close_in_query.
  - eapply releases_after_acquisition with (during := sent_by_execute props).
    + intros d1 d2 tr (Hc & _). by apply createConnection_same_connect.
    + intros drv tr conn tr1 Hacq. unfold Legacy.execute.
      by rewrite (legacy_shape _ _ _ _ drv tr conn tr1 Hacq).
    + intros conn drv tr. apply execute_block_trace.
    + intros conn d1 d2 tr Hd. by apply execute_block_same.
    + intros c. apply not_close_in_sent.
  - eapply releases_after_acquisition with (during := [EvQuery [] catalog_sql]).
    + intros d1 d2 tr (Hc & _). by apply createConnection_same_connect.
    + intros drv tr conn tr1 Hacq. unfold Legacy.metadata.
      by rewrite (legacy_shape _ _ _ _ drv tr conn tr1 Hacq).
    + intros conn drv tr. apply catalog_block_trace.
    + intros conn d1 d2 tr Hd. by apply catalog_block_same.
    + intros c. apply not_close_in_query.
  - eapply releases_after_acquisition with (during := [EvQuery [] test_sql]).
    + intros d1 d2 tr (Hc & _). by apply createConnection_same_connect.
    + intros drv tr conn tr1 Hacq. unfold Legacy.test.
      by rewrite (legacy_shape _ _ _ _ drv tr conn tr1 Hacq).
    + intros conn drv tr. apply (probe_block_trace conn).
    + intros conn d1 d2 tr Hd. by apply (probe_block_same conn).
    + intros c. apply not_close_in_query.
Qed.

(** A failing close leaves the schema that [metadata] returns in place. *)
Example metadata_result_survives_failing_close :
  Pooled.metadata sample_configuration failing_close_driver []
  = (Returned {| dbSchema := {| tables := [] |} |},
     [EvConnect (pool_config sample_pool); EvQuery [] catalog_sql; EvClose sample_pool]).
Proof. by vm_compute. Qed.

(** ** Association lists and the object model *)

Section Assoc.

Context {K V : Type} `{EqDecision K}.
Implicit Types (l : list (K * V)).

Lemma assoc_None k l : assoc k l = None <-> k ∉ l.*1.
Proof.
  induction l as [|[k' v'] l IH]; csimpl.
  - split; [intros _; apply not_elem_of_nil|done].
  - rewrite not_elem_of_cons. destruct (decide (k = k')) as [Hk|Hk].
    + split; [done|]. by intros [? _].
    + rewrite IH. split; [done|]. by intros [_ ?].
Qed.

Lemma assoc_Some_elem k v l : assoc k l = Some v -> (k, v) ∈ l.
Proof.
  induction l as [|[k' v'] l IH]; simpl; [done|].
  case_decide as Hk.
  - intros [= <-]. subst k'. apply list_elem_of_here.
  - intros H. apply list_elem_of_further. by apply IH.
Qed.

Lemma assoc_update_keys k v l : (assoc_update k v l).*1 = l.*1.
Proof.
  induction l as [|[k' v'] l IH]; csimpl; [done|].
  destruct (decide (k = k')) as [Hk|Hk]; csimpl; [by subst|]. by rewrite IH.
Qed.

Lemma Forall_assoc_update (P : K * V -> Prop) k v l :
  Forall P l -> P (k, v) -> Forall P (assoc_update k v l).
Proof.
  intros Hl Hkv. induction Hl as [|[k' v'] l Hp Hl IH]; simpl; [done|].
  case_decide; constructor; done.
Qed.

End Assoc.

Lemma insert_index_keys {V : Type} n (v : V) l x :
  x ∈ (insert_index n v l).*1 <-> x = n \/ x ∈ l.*1.
Proof.
  induction l as [|[n' v'] l IH]; csimpl.
  - rewrite list_elem_of_singleton. split; [by left|]. intros [?|H]; [done|].
    by apply elem_of_nil in H.
  - destruct (n <? n')%N; csimpl.
    + by rewrite !elem_of_cons.
    + rewrite !elem_of_cons, IH. tauto.
Qed.

Lemma insert_index_sorted {V : Type} n (v : V) l :
  StronglySorted N.lt l.*1 -> n ∉ l.*1 ->
  StronglySorted N.lt (insert_index n v l).*1.
Proof.
  induction l as [|[n' v'] l IH]; csimpl; intros Hs Hn.
  - repeat constructor.
  - apply StronglySorted_inv in Hs as [Hs Hall].
    apply not_elem_of_cons in Hn as [Hne Hn].
    destruct (N.ltb_spec n n') as [Hlt|Hge]; csimpl.
    + constructor; [by constructor|].
      constructor; [done|]. eapply Forall_impl; [exact Hall|].
      intros y Hy. simpl in *. lia.
    + constructor; [by apply IH|].
      apply Forall_forall. intros y Hy. apply insert_index_keys in Hy as [->|Hy].
      * lia.
      * by eapply Forall_forall in Hall.
Qed.

Lemma Forall_insert_index {V : Type} (P : N * V -> Prop) n v l :
  Forall P l -> P (n, v) -> Forall P (insert_index n v l).
Proof.
  intros Hl Hnv. induction Hl as [|[n' v'] l Hp Hl IH]; simpl; [by constructor|].
  destruct (n <? n')%N; repeat constructor; done.
Qed.

Lemma array_index_pretty key n : array_index key = Some n -> key = pretty n.
Proof.
  unfold array_index. destruct (parse_digits 0 key) as [m|]; [|done].
  destruct (m <? 2 ^ 32 - 1)%N; simpl; [|done].
  destruct (String.eqb_spec (pretty m) key) as [Heq|]; [|done].
  by intros [= <-].
Qed.

(** ** First encounters *)

Lemma first_encounters_snoc names name :
  first_encounters (names ++ [name])
  = if bool_decide (name ∈ first_encounters names) then first_encounters names
    else first_encounters names ++ [name].
Proof. unfold first_encounters. by rewrite foldl_snoc. Qed.

Lemma elem_of_first_encounters names x :
  x ∈ first_encounters names <-> x ∈ names.
Proof.
  induction names as [|name names IH] using rev_ind.
  - done.
  - rewrite first_encounters_snoc, elem_of_app, list_elem_of_singleton.
    case_bool_decide as Hin.
    + rewrite IH. split; [tauto|]. intros [?| ->]; [done|]. by apply IH.
    + rewrite elem_of_app, list_elem_of_singleton, IH. tauto.
Qed.

Lemma NoDup_first_encounters names : NoDup (first_encounters names).
Proof.
  induction names as [|name names IH] using rev_ind.
  - constructor.
  - rewrite first_encounters_snoc. case_bool_decide as Hin; [done|].
    apply NoDup_app. split; [done|]. split; [|apply NoDup_singleton].
    intros x Hx Hx'. apply list_elem_of_singleton in Hx'. by subst.
Qed.

(** ** The fold of the catalog rows *)

Lemma names_view_empty : names_view [] js_empty.
Proof.
  repeat split; simpl; try constructor.
  - intros H. by apply elem_of_nil in H.
  - intros (name & H & _). by apply elem_of_nil in H.
Qed.

Lemma index_names_snoc names name n :
  (exists name', name' ∈ names ++ [name] /\ array_index name' = Some n)
  <-> (exists name', name' ∈ names /\ array_index name' = Some n)
      \/ array_index name = Some n.
Proof.
  split.
  - intros (name' & Hin & Hidx). apply elem_of_app in Hin as [Hin|Hin].
    + left. eauto.
    + apply list_elem_of_singleton in Hin as ->. by right.
  - intros [(name' & Hin & Hidx)|Hidx].
    + exists name'. split; [|done]. apply elem_of_app. by left.
    + exists name. split; [|done]. apply elem_of_app. right.
      by apply list_elem_of_singleton.
Qed.

(** One turn of the loop on a table name that is no property of
    [Object.prototype]: it returns, and the view extends by the name. *)
Lemma fold_record_view names o r :
  names_view names o ->
  table_name r ∉ Object_prototype_names ->
  exists o', fold_record o r = Returned o'
             /\ names_view (names ++ [table_name r]) o'.
Proof.
  intros (Hnamed & Hsorted & Hkeys & Hnames & Hidxnames) Hproto.
  unfold fold_record, js_get, own_property, js_set.
  set (c := {| col_name := column_name r; col_type := data_type r |}).
  destruct (array_index (table_name r)) as [n|] eqn:Hidx.
  - assert (Hfilter : filter (fun name => array_index name = None) (names ++ [table_name r])
                      = filter (fun name => array_index name = None) names).
    { rewrite filter_app, filter_cons_False, filter_nil, app_nil_r; [done|].
      by rewrite Hidx. }
    destruct (assoc n (indexed o)) as [t|] eqn:Ha.
    + eexists. split; [done|]. unfold names_view. cbn [indexed named].
      pose proof (assoc_Some_elem _ _ _ Ha) as Hin.
      split; [by rewrite Hfilter|].
      split; [by rewrite assoc_update_keys|].
      split.
      * intros n'. rewrite assoc_update_keys, index_names_snoc, Hkeys.
        split; [tauto|]. intros [?|Heq]; [done|].
        rewrite Hidx in Heq. injection Heq as <-. apply Hkeys.
        apply list_elem_of_fmap. by exists (n, t).
      * split; [done|]. apply Forall_assoc_update; [done|]. simpl.
        by eapply Forall_forall in Hidxnames; [|exact Hin].
    + rewrite bool_decide_eq_false_2 by done.
      eexists. split; [done|]. unfold names_view. cbn [indexed named].
      apply assoc_None in Ha.
      split; [by rewrite Hfilter|].
      split; [by apply insert_index_sorted|].
      split.
      * intros n'. rewrite insert_index_keys, index_names_snoc, Hkeys, Hidx.
        split; [intros [->|?]; tauto|]. intros [?|[= ->]]; tauto.
      * split; [done|]. apply Forall_insert_index; [done|]. simpl.
        by apply array_index_pretty.
  - assert (Hfilter : filter (fun name => array_index name = None) (names ++ [table_name r])
                      = filter (fun name => array_index name = None) names ++ [table_name r]).
    { by rewrite filter_app, filter_cons_True, filter_nil. }
    assert (Hsame : forall n,
               (exists name, name ∈ names ++ [table_name r] /\ array_index name = Some n)
               <-> exists name, name ∈ names /\ array_index name = Some n).
    { intros n. rewrite index_names_snoc, Hidx. split; [|tauto].
      intros [?|?]; [done|discriminate]. }
    destruct (assoc (table_name r) (named o)) as [t|] eqn:Ha.
    + eexists. split; [done|]. unfold names_view. cbn [indexed named].
      pose proof (assoc_Some_elem _ _ _ Ha) as Hin.
      split.
      * rewrite assoc_update_keys, Hfilter, first_encounters_snoc, <- Hnamed.
        rewrite bool_decide_eq_true_2; [done|].
        apply list_elem_of_fmap. by exists (table_name r, t).
      * split; [done|]. split; [intros n; by rewrite Hsame|].
        split; [|done]. apply Forall_assoc_update; [done|]. simpl.
        by eapply Forall_forall in Hnames; [|exact Hin].
    + rewrite bool_decide_eq_false_2 by done.
      eexists. split; [done|]. unfold names_view. cbn [indexed named].
      apply assoc_None in Ha.
      split.
      * rewrite fmap_app, Hfilter, first_encounters_snoc, <- Hnamed.
        by rewrite bool_decide_eq_false_2.
      * split; [done|]. split; [intros n; by rewrite Hsame|].
        split; [|done]. apply Forall_app. split; [done|]. by repeat constructor.
Qed.

Lemma fold_records_view rows : forall names o,
  names_view names o ->
  Forall (fun r => table_name r ∉ Object_prototype_names) rows ->
  exists o', fold_records o rows = Returned o'
             /\ names_view (names ++ (table_name <$> rows)) o'.
Proof.
  induction rows as [|r rows IH]; intros names o Hview Hok.
  - exists o. split; [done|]. by rewrite app_nil_r.
  - apply Forall_cons in Hok as [Hr Hok].
    destruct (fold_record_view names o r Hview Hr) as (o1 & Hstep & Hview1).
    destruct (IH _ _ Hview1 Hok) as (o' & Hrest & Hview').
    exists o'. simpl. rewrite Hstep. split; [done|].
    by rewrite <- app_assoc in Hview'.
Qed.

Lemma names_of_values names o :
  names_view names o ->
  tbl_name <$> Object_values o = (pretty <$> (indexed o).*1) ++ (named o).*1.
Proof.
  intros (_ & _ & _ & Hnames & Hidxnames).
  unfold Object_values. rewrite fmap_app, <- !list_fmap_compose. f_equal.
  - apply list_fmap_ext. intros i p Hp. simpl.
    eapply Forall_forall in Hidxnames; [exact Hidxnames|].
    apply list_elem_of_lookup. eauto.
  - apply list_fmap_ext. intros i p Hp. simpl.
    eapply Forall_forall in Hnames; [exact Hnames|].
    apply list_elem_of_lookup. eauto.
Qed.

(** What [metadata] returns once it has its connection and the catalog
    has answered: the schema built from the rows, or the fold's error
    wrapped. *)
Lemma metadata_returns_built_schema cfg drv tr recordset :
  (forall conn tr1,
     Pooled.createConnection cfg default_connectionTimeoutMillis drv tr
     = (Returned conn, tr1) ->
     catalog_reply drv tr1 = Returned recordset ->
     fst (Pooled.metadata cfg drv tr)
     = match build_schema recordset with
       | Returned dto => Returned dto
       | Thrown err =>
           Thrown (IntegrationError
                     ("Failed to connect to " +:+ pluginName +:+ ", " +:+ message err))
       end)
  /\ (forall conn tr1,
        Legacy.createConnection cfg default_connectionTimeoutMillis drv tr
        = (Returned conn, tr1) ->
        catalog_reply drv tr1 = Returned recordset ->
        fst (Legacy.metadata cfg drv tr)
        = match build_schema recordset with
          | Returned dto => Returned dto
          | Thrown err =>
              Thrown (IntegrationError
                        ("Failed to connect to " +:+ pluginName +:+ ", " +:+ message err))
          end).
Proof.
  split; intros conn tr1 Hacq Hcat.
  - unfold Pooled.metadata.
    rewrite (pooled_shape cfg _ drv tr conn tr1 Hacq).
    unfold_effects. simpl. rewrite Hcat. simpl.
    destruct (build_schema recordset); simpl;
      match goal with |- context [close_reply drv ?t conn] =>
        destruct (close_reply drv t conn) end; done.
  - unfold Legacy.metadata.
    rewrite (legacy_shape _ _ _ _ drv tr conn tr1 Hacq).
    unfold_effects. simpl. rewrite Hcat. simpl.
    destruct (build_schema recordset); simpl;
      match goal with |- context [close_reply drv ?t conn] =>
        destruct (close_reply drv t conn) end; done.
Qed.

(** C10, as the code has it. For rows whose table names are no property
    names of [Object.prototype], the schema is built, and its tables are
    listed as [Object.values] enumerates the map: first the tables whose
    name is an array index, in ascending numeric order, then all other
    tables in the order in which their name is first met in the rows. When
    no table name is an array index this is the first-encounter order.
    [metadata] of either plugin returns this schema once it has its
    connection and the catalog has answered with the rows. *)
Theorem tables_listed_by_index_then_first_encounter recordset :
  Forall (fun r => table_name r ∉ Object_prototype_names) recordset ->
  let names := table_name <$> recordset in
  exists dto idx,
    build_schema recordset = Returned dto
    /\ tbl_name <$> tables (dbSchema dto)
       = (pretty <$> idx)
         ++ first_encounters (filter (fun name => array_index name = None) names)
    /\ StronglySorted N.lt idx
    /\ (forall n, n ∈ idx <-> exists name, name ∈ names /\ array_index name = Some n)
    /\ (Forall (fun name => array_index name = None) names ->
        tbl_name <$> tables (dbSchema dto) = first_encounters names)
    /\ (forall cfg drv tr conn tr1,
          Pooled.createConnection cfg default_connectionTimeoutMillis drv tr
          = (Returned conn, tr1) ->
          catalog_reply drv tr1 = Returned recordset ->
          fst (Pooled.metadata cfg drv tr) = Returned dto)
    /\ (forall cfg drv tr conn tr1,
          Legacy.createConnection cfg default_connectionTimeoutMillis drv tr
          = (Returned conn, tr1) ->
          catalog_reply drv tr1 = Returned recordset ->
          fst (Legacy.metadata cfg drv tr) = Returned dto).
Proof.
  intros Hok names.
  destruct (fold_records_view recordset [] js_empty names_view_empty Hok)
    as (o & Hfold & Hview).
  simpl in Hview. fold names in Hview.
  pose proof (names_of_values _ _ Hview) as Hvalues.
  destruct Hview as (Hnamed & Hsorted & Hkeys & _).
  exists {| dbSchema := {| tables := Object_values o |} |}, (indexed o).*1.
  assert (Hbuilt : build_schema recordset
                   = Returned {| dbSchema := {| tables := Object_values o |} |}).
  { unfold build_schema. by rewrite Hfold. }
  split; [done|]. simpl.
  split; [by rewrite Hvalues, Hnamed|].
  split; [done|]. split; [done|]. split; [|split].
  - intros Hnone. rewrite Hvalues, Hnamed.
    assert (Hempty : (indexed o).*1 = []).
    { destruct ((indexed o).*1) as [|n rest]; [done|].
      destruct (proj1 (Hkeys n)) as (name & Hin & Hidx); [by left|].
      eapply Forall_forall in Hnone; [|exact Hin]. congruence. }
    rewrite Hempty. simpl. f_equal.
    clear -Hnone. induction Hnone as [|x l Hx Hl IH]; [done|].
    by rewrite filter_cons_True, IH.
  - intros cfg drv tr conn tr1 Hacq Hcat.
    rewrite (proj1 (metadata_returns_built_schema cfg drv tr recordset) conn tr1 Hacq Hcat).
    by rewrite Hbuilt.
  - intros cfg drv tr conn tr1 Hacq Hcat.
    rewrite (proj2 (metadata_returns_built_schema cfg drv tr recordset) conn tr1 Hacq Hcat).
    by rewrite Hbuilt.
Qed.

(** The rows of the specification's example: [Users], then [Orders]. *)
Lemma tables_listed_by_index_then_first_encounter_witness :
  exists dto,
    build_schema [catalog_row "Users" "id" "int"; catalog_row "Users" "name" "varchar";
                  catalog_row "Orders" "id" "int"]
    = Returned dto
    /\ tbl_name <$> tables (dbSchema dto) = ["Users"; "Orders"].
Proof.
  destruct (tables_listed_by_index_then_first_encounter
              [catalog_row "Users" "id" "int"; catalog_row "Users" "name" "varchar";
               catalog_row "Orders" "id" "int"])
    as (dto & idx & Hbuilt & _ & _ & _ & Hfirst & _).
  - repeat (apply Forall_cons; split; [intros H; other_elements H|]).
    apply Forall_nil_2.
  - exists dto. split; [exact Hbuilt|]. apply Hfirst.
    repeat (apply Forall_cons; split; [by vm_compute|]). apply Forall_nil_2.
Defined.

(** C10 as stated fails for table names that are array indices: with the
    rows of table [t] before those of table [7], [metadata] lists [7]
    first. *)
Lemma index_named_table_is_listed_first :
  fst (Pooled.metadata sample_configuration
         (catalog_driver [catalog_row "t" "id" "int"; catalog_row "7" "id" "int"]) [])
  = Returned
      {| dbSchema :=
           {| tables :=
                [ {| tbl_name := "7"; tbl_type := TABLE;
                     columns := [{| col_name := "id"; col_type := "int" |}] |};
                  {| tbl_name := "t"; tbl_type := TABLE;
                     columns := [{| col_name := "id"; col_type := "int" |}] |} ] |} |}
  /\ first_encounters ["t"; "7"] = ["t"; "7"].
Proof. by vm_compute. Qed.

(** C6 at a table whose name is a property name of [Object.prototype]:
    the lookup [tablesMap["constructor"]] finds the inherited function, the
    loop takes the branch for a known table and throws on the missing
    [columns]; [metadata] fails where the claim has it return the table
    [constructor] with its column. *)
Theorem table_named_constructor_breaks_metadata :
  build_schema [catalog_row "constructor" "id" "int"]
  = Thrown (TypeError "Cannot read properties of undefined (reading 'push')")
  /\ fst (Pooled.metadata sample_configuration
            (catalog_driver [catalog_row "constructor" "id" "int"]) [])
     = Thrown (IntegrationError
                 "Failed to connect to Microsoft SQL, Cannot read properties of undefined (reading 'push')")
  /\ fst (Legacy.metadata sample_configuration
            (catalog_driver [catalog_row "constructor" "id" "int"]) [])
     = Thrown (IntegrationError
                 "Failed to connect to Microsoft SQL, Cannot read properties of undefined (reading 'push')").
Proof. by vm_compute. Qed.

(** The example of C6: two tables, [Users] with its two columns in
    order, then [Orders]. *)
Example users_and_orders :
  build_schema [catalog_row "Users" "id" "int"; catalog_row "Users" "name" "varchar";
                catalog_row "Orders" "id" "int"]
  = Returned
      {| dbSchema :=
           {| tables :=
                [ {| tbl_name := "Users"; tbl_type := TABLE;
                     columns := [{| col_name := "id"; col_type := "int" |};
                                 {| col_name := "name"; col_type := "varchar" |}] |};
                  {| tbl_name := "Orders"; tbl_type := TABLE;
                     columns := [{| col_name := "id"; col_type := "int" |}] |} ] |} |}.
Proof. by vm_compute. Qed.

(** ** The columns of each table *)

Lemma StronglySorted_lt_NoDup (l : list N) : StronglySorted N.lt l -> NoDup l.
Proof.
  induction 1 as [|n l Hs IH Hall]; constructor; [|done].
  intros Hin. eapply Forall_forall in Hall; [|exact Hin]. lia.
Qed.

Lemma elem_of_assoc_update {K V : Type} `{EqDecision K} k (v : V) (l : list (K * V)) p :
  NoDup l.*1 -> p ∈ assoc_update k v l -> p = (k, v) \/ (p ∈ l /\ p.1 <> k).
Proof.
  induction l as [|[k' v'] l IH]; csimpl; intros Hnd Hp.
  - by apply elem_of_nil in Hp.
  - apply NoDup_cons in Hnd as [Hk' Hnd].
    destruct (decide (k = k')) as [->|Hne].
    + apply elem_of_cons in Hp as [->|Hp]; [by left|]. right.
      split; [by apply list_elem_of_further|].
      intros Heq. apply Hk'. apply list_elem_of_fmap. exists p. by rewrite Heq.
    + apply elem_of_cons in Hp as [->|Hp].
      * right. split; [apply list_elem_of_here|]. simpl. congruence.
      * destruct (IH Hnd Hp) as [->|[Hin Hk]]; [by left|]. right.
        split; [by apply list_elem_of_further|done].
Qed.

Lemma elem_of_insert_index {V : Type} n (v : V) l p :
  p ∈ insert_index n v l -> p = (n, v) \/ p ∈ l.
Proof.
  induction l as [|[n' v'] l IH]; simpl; intros Hp.
  - apply list_elem_of_singleton in Hp. by left.
  - destruct (n <? n')%N.
    + apply elem_of_cons in Hp as [->|Hp]; [by left|by right].
    + apply elem_of_cons in Hp as [->|Hp]; [right; apply list_elem_of_here|].
      destruct (IH Hp) as [->|Hin]; [by left|]. right. by apply list_elem_of_further.
Qed.

Lemma columns_of_snoc name rows r :
  columns_of name (rows ++ [r])
  = columns_of name rows
    ++ (if decide (table_name r = name)
        then [{| col_name := column_name r; col_type := data_type r |}] else []).
Proof.
  unfold columns_of. rewrite filter_app, fmap_app. f_equal.
  destruct (decide (table_name r = name)) as [Heq|Hne].
  - by rewrite filter_cons_True.
  - by rewrite filter_cons_False.
Qed.

Lemma columns_of_other name rows r :
  table_name r <> name -> columns_of name (rows ++ [r]) = columns_of name rows.
Proof.
  intros Hne. rewrite columns_of_snoc. rewrite decide_False by done.
  by rewrite app_nil_r.
Qed.

Lemma columns_of_same rows r :
  columns_of (table_name r) (rows ++ [r])
  = columns_of (table_name r) rows
    ++ [{| col_name := column_name r; col_type := data_type r |}].
Proof. rewrite columns_of_snoc. by rewrite decide_True. Qed.

Lemma columns_of_unseen name rows :
  name ∉ table_name <$> rows -> columns_of name rows = [].
Proof.
  unfold columns_of. induction rows as [|r rows IH]; csimpl; intros Hni; [done|].
  apply not_elem_of_cons in Hni as [Hne Hni].
  rewrite filter_cons_False by congruence. by apply IH.
Qed.

Lemma columns_view_empty : columns_view [] js_empty.
Proof. split; constructor. Qed.

(** One turn of the loop keeps every table's columns in step with the
    rows. *)
Lemma fold_record_columns rows o o' r :
  names_view (table_name <$> rows) o ->
  columns_view rows o ->
  fold_record o r = Returned o' ->
  columns_view (rows ++ [r]) o'.
Proof.
  intros (Hnamed & Hsorted & Hkeys & Hnames & Hidxnames) [Hcn Hci].
  assert (Hnd_named : NoDup (named o).*1).
  { rewrite Hnamed. apply NoDup_first_encounters. }
  assert (Hnd_indexed : NoDup (indexed o).*1) by by apply StronglySorted_lt_NoDup.
  unfold fold_record, js_get, own_property, js_set.
  set (c := {| col_name := column_name r; col_type := data_type r |}).
  destruct (array_index (table_name r)) as [n|] eqn:Hidx.
  - pose proof (array_index_pretty _ _ Hidx) as Hname.
    assert (Hnamed_other : Forall (fun p => array_index p.1 = None
                                            /\ columns p.2 = columns_of p.1 (rows ++ [r]))
                             (named o)).
    { eapply Forall_impl; [exact Hcn|]. intros p [Hp Hcols]. split; [done|].
      rewrite columns_of_other; [done|]. intros Heq. congruence. }
    destruct (assoc n (indexed o)) as [t|] eqn:Ha.
    + intros [= <-]. split; [done|]. cbn [indexed named].
      pose proof (assoc_Some_elem _ _ _ Ha) as Hin.
      apply Forall_forall. intros p Hp.
      destruct (elem_of_assoc_update _ _ _ _ Hnd_indexed Hp) as [->|[Hp' Hne]].
      * simpl. eapply Forall_forall in Hci; [|exact Hin]. destruct Hci as [Hi Hcols].
        split; [done|]. simpl in *. rewrite Hcols, <- Hname. by rewrite columns_of_same.
      * eapply Forall_forall in Hci; [|exact Hp']. destruct Hci as [Hi Hcols].
        split; [done|]. rewrite columns_of_other; [done|].
        rewrite Hname. intros Heq. apply (inj pretty) in Heq. congruence.
    + destruct (bool_decide _); [done|]. intros [= <-].
      split; [done|]. cbn [indexed named].
      apply assoc_None in Ha.
      apply Forall_forall. intros p Hp.
      destruct (elem_of_insert_index _ _ _ _ Hp) as [->|Hp'].
      * simpl. rewrite <- Hname. split; [done|].
        rewrite columns_of_same.
        rewrite columns_of_unseen; [done|].
        intros Hseen. apply Ha, Hkeys. eauto.
      * eapply Forall_forall in Hci; [|exact Hp']. destruct Hci as [Hi Hcols].
        split; [done|]. rewrite columns_of_other; [done|].
        rewrite Hname. intros Heq. apply (inj pretty) in Heq. apply Ha.
        apply list_elem_of_fmap. exists p. by rewrite Heq.
  - assert (Hindexed_other : Forall (fun p => array_index (pretty p.1) = Some p.1
                                    /\ columns p.2 = columns_of (pretty p.1) (rows ++ [r]))
                               (indexed o)).
    { eapply Forall_impl; [exact Hci|]. intros p [Hp Hcols]. split; [done|].
      rewrite columns_of_other; [done|]. intros Heq. congruence. }
    destruct (assoc (table_name r) (named o)) as [t|] eqn:Ha.
    + intros [= <-]. split; [|done]. cbn [indexed named].
      pose proof (assoc_Some_elem _ _ _ Ha) as Hin.
      apply Forall_forall. intros p Hp.
      destruct (elem_of_assoc_update _ _ _ _ Hnd_named Hp) as [->|[Hp' Hne]].
      * simpl. eapply Forall_forall in Hcn; [|exact Hin]. destruct Hcn as [Hi Hcols].
        split; [done|]. simpl in *. by rewrite Hcols, columns_of_same.
      * eapply Forall_forall in Hcn; [|exact Hp']. destruct Hcn as [Hi Hcols].
        split; [done|]. rewrite columns_of_other; [done|]. congruence.
    + destruct (bool_decide _); [done|]. intros [= <-].
      split; [|done]. cbn [indexed named].
      apply assoc_None in Ha.
      apply Forall_app. split.
      * apply Forall_forall. intros p Hp.
        eapply Forall_forall in Hcn; [|exact Hp]. destruct Hcn as [Hi Hcols].
        split; [done|]. rewrite columns_of_other; [done|].
        intros Heq. apply Ha. apply list_elem_of_fmap. exists p. by rewrite Heq.
      * constructor; [|done]. simpl. split; [done|].
        rewrite columns_of_same.
        rewrite columns_of_unseen; [done|].
        intros Hseen. apply Ha. rewrite Hnamed.
        by apply elem_of_first_encounters, list_elem_of_filter.
Qed.

Lemma fold_records_columns rows : forall seen o,
  names_view (table_name <$> seen) o ->
  columns_view seen o ->
  Forall (fun r => table_name r ∉ Object_prototype_names) rows ->
  exists o', fold_records o rows = Returned o'
             /\ names_view (table_name <$> (seen ++ rows)) o'
             /\ columns_view (seen ++ rows) o'.
Proof.
  induction rows as [|r rows IH]; intros seen o Hnames Hcols Hok.
  - exists o. by rewrite app_nil_r.
  - apply Forall_cons in Hok as [Hr Hok].
    destruct (fold_record_view _ o r Hnames Hr) as (o1 & Hstep & Hnames1).
    pose proof (fold_record_columns seen o o1 r Hnames Hcols Hstep) as Hcols1.
    assert (Hnames1' : names_view (table_name <$> (seen ++ [r])) o1).
    { by rewrite fmap_app. }
    destruct (IH _ _ Hnames1' Hcols1 Hok) as (o' & Hrest & Hnames' & Hcols').
    exists o'. simpl. rewrite Hstep. rewrite <- app_assoc in Hnames', Hcols'. done.
Qed.

(** The fold of C6 on rows whose table names are no property names of
    [Object.prototype]: one table per table name, and every table holds
    one column per row of that name, in stream order. *)
Lemma schema_groups_rows_by_table recordset :
  Forall (fun r => table_name r ∉ Object_prototype_names) recordset ->
  exists dto,
    build_schema recordset = Returned dto
    /\ NoDup (tbl_name <$> tables (dbSchema dto))
    /\ (forall name,
          name ∈ tbl_name <$> tables (dbSchema dto) <-> name ∈ table_name <$> recordset)
    /\ Forall (fun t => columns t = columns_of (tbl_name t) recordset)
         (tables (dbSchema dto)).
Proof.
  intros Hok.
  destruct (fold_records_columns recordset [] js_empty names_view_empty
              columns_view_empty Hok) as (o & Hfold & Hnames & Hcols).
  simpl in Hnames, Hcols.
  exists {| dbSchema := {| tables := Object_values o |} |}.
  split; [unfold build_schema; by rewrite Hfold|]. simpl.
  rewrite (names_of_values _ _ Hnames).
  destruct Hnames as (Hnamed & Hsorted & Hkeys & Hn & Hi). destruct Hcols as [Hcn Hci].
  assert (Hidx : forall n, n ∈ (indexed o).*1 ->
                           pretty n ∈ table_name <$> recordset
                           /\ array_index (pretty n) = Some n).
  { intros n Hin. apply Hkeys in Hin as (name & Hin & Harr).
    by rewrite <- (array_index_pretty _ _ Harr). }
  split; [|split].
  - apply NoDup_app. split; [|split].
    + apply (NoDup_fmap_2 _). by apply StronglySorted_lt_NoDup.
    + intros x Hx Hx'. apply list_elem_of_fmap in Hx as (n & -> & Hin).
      rewrite Hnamed in Hx'.
      apply elem_of_first_encounters, list_elem_of_filter in Hx' as [Hnone _].
      destruct (Hidx n Hin) as [_ Hsome]. congruence.
    + rewrite Hnamed. apply NoDup_first_encounters.
  - intros name. rewrite elem_of_app, Hnamed, elem_of_first_encounters,
      list_elem_of_filter. split.
    + intros [Hx|[_ Hx]]; [|done].
      apply list_elem_of_fmap in Hx as (n & -> & Hin). by apply Hidx.
    + intros Hin. destruct (array_index name) as [n|] eqn:Harr; [left|by right].
      rewrite (array_index_pretty _ _ Harr). apply list_elem_of_fmap_2, Hkeys. eauto.
  - unfold Object_values. apply Forall_app. split.
    + apply Forall_fmap, Forall_forall. intros p Hp. simpl.
      eapply Forall_forall in Hi; [|exact Hp].
      eapply Forall_forall in Hci; [|exact Hp]. rewrite Hi. by destruct Hci.
    + apply Forall_fmap, Forall_forall. intros p Hp. simpl.
      eapply Forall_forall in Hn; [|exact Hp].
      eapply Forall_forall in Hcn; [|exact Hp]. rewrite Hn. by destruct Hcn.
Qed.

(** ** From resolution to execution *)

(** The end-to-end example of the specification: the template
    [... id = {{id}} AND name = {{name}}] in the context
    [{id: 5, name: "ann"}]. *)
Example end_to_end_example :
  Pooled.resolveActionConfigurationProperty spec_backend two_bindings
  = (Returned {| resolved := "SELECT * FROM t WHERE id = @PARAM_1 AND name = @PARAM_2" |},
     set_preparedStatementContext (context two_bindings) [JsNumber 5; JsString "ann"]).
Proof. by vm_compute. Qed.

(** X12. What the resolver leaves in the context is what the executor binds:
    when the resolved string is executed in the context the resolver
    left, the value of the i-th occurrence travels under [PARAM_i], the
    name of the placeholder [@PARAM_i] that the i-th turn of the
    resolver's loop generated. *)
Lemma resolved_parameters_reach_their_placeholders sb rc m cfg conn drv tr :
  truthy_flag (usePreparedSql (actionConfiguration rc)) = true ->
  property rc = "body" ->
  resolveAllBindings sb (propertyToResolve rc) (context rc)
    (default ∅ (files rc)) (escapeStrings rc) = Returned m ->
  forall rendered context',
    Pooled.resolveActionConfigurationProperty sb rc
    = (Returned {| resolved := rendered |}, context') ->
    rendered <> "" ->
    snd (Pooled.executePooled sb
           {| props_context := context';
              props_datasourceConfiguration := cfg;
              props_actionConfiguration :=
                {| body := Some rendered; usePreparedSql := Some true |} |}
           conn drv tr)
    = tr ++ [EvQuery
               (imap (fun i toEval => (param_name (S i), resolution_of m toEval))
                  (extractMustacheStrings sb (propertyToResolve rc)))
               rendered].
Proof.
  intros Hflag Hprop Hm rendered context' Hres Hne.
  destruct (resolver_on_prepared_path sb rc m Hflag Hprop Hm) as [Hp _].
  rewrite Hp in Hres. injection Hres as _ <-.
  rewrite executePooled_sends.
  - simpl. rewrite bind_expressions_context. simpl.
    do 3 f_equal. by rewrite imap_fmap.
  - simpl. by destruct (String.eqb_spec rendered "").
Qed.

(** * Further properties of the code *)

(** ** Execution *)

Lemma falsy_or_isEmpty query_text :
  falsy_string query_text || isEmpty query_text = isEmpty query_text.
Proof.
  destruct query_text as [q|]; [|done]. unfold falsy_string. simpl.
  destruct (String.eqb q ""); done.
Qed.

(** X1. With a body that is not empty, [executePooled] sends the query
    and nothing else, and its outcome is the driver's answer translated:
    rows become the output after [normalizeTableColumnNames], a failure
    becomes an [IntegrationError] whose message is
    ["Microsoft SQL query failed, "] followed by the driver's message. It
    never connects and never closes the connection it was handed. *)
Theorem executePooled_translates_the_reply sb props conn drv tr :
  isEmpty (body (props_actionConfiguration props)) = false ->
  let bound := imap (fun i v => (param_name (S i), v))
                 (preparedStatementContext (props_context props)) in
  let sql := default "" (body (props_actionConfiguration props)) in
  Pooled.executePooled sb props conn drv tr
  = (match query_reply drv tr bound sql with
     | Returned rows => Returned {| output := Some (normalizeTableColumnNames sb rows) |}
     | Thrown err =>
         Thrown (IntegrationError (pluginName +:+ " query failed, " +:+ message err))
     end,
     tr ++ [EvQuery bound sql]).
Proof.
  intros Hbody bound sql.
  unfold Pooled.executePooled. rewrite falsy_or_isEmpty, Hbody.
  rewrite bind_params_inputs. unfold_effects. simpl.
  by destruct (query_reply drv tr _ _).
Qed.

(** A failing query under the pooled plugin. *)
Lemma executePooled_translates_the_reply_witness :
  Pooled.executePooled spec_backend (sample_props (Some "select 1 from missing") [])
    sample_pool failing_query_driver []
  = (Thrown (IntegrationError "Microsoft SQL query failed, invalid object name"),
     [EvQuery [] "select 1 from missing"]).
Proof.
  exact (executePooled_translates_the_reply spec_backend
           (sample_props (Some "select 1 from missing") [])
           sample_pool failing_query_driver [] eq_refl).
Defined.

(** X2. [execute] of [src/index.ts] is [executePooled] between an
    acquisition and a close: once its own [createConnection] has returned
    a connection, it ends as [executePooled] ends on that connection, with
    the same outcome and the same query, followed by the close. *)
Theorem execute_is_executePooled_then_close sb props drv tr conn tr1 :
  Legacy.createConnection (props_datasourceConfiguration props)
    default_connectionTimeoutMillis drv tr = (Returned conn, tr1) ->
  Legacy.execute sb props drv tr
  = (fst (Pooled.executePooled sb props conn drv tr1),
     snd (Pooled.executePooled sb props conn drv tr1) ++ [EvClose conn]).
Proof.
  intros Hacq.
  unfold Legacy.execute, Legacy.try_with_connection, Pooled.executePooled.
  rewrite Hacq, falsy_or_isEmpty.
  destruct (isEmpty (body (props_actionConfiguration props))).
  - unfold_effects. simpl. by destruct (close_reply drv tr1 conn).
  - rewrite bind_params_inputs. unfold_effects. simpl.
    destruct (query_reply drv tr1 _ _); simpl;
      match goal with |- context [close_reply drv ?t conn] =>
        destruct (close_reply drv t conn) end; done.
Qed.

(** A query that fails under [src/index.ts]: the same error as in the
    pooled plugin, and the connection is closed. *)
Lemma execute_is_executePooled_then_close_witness :
  Legacy.execute spec_backend (sample_props (Some "select 1 from missing") [])
    failing_query_driver []
  = (Thrown (IntegrationError "Microsoft SQL query failed, invalid object name"),
     [EvConnect (pool_config sample_pool); EvQuery [] "select 1 from missing";
      EvClose sample_pool]).
Proof.
  exact (execute_is_executePooled_then_close spec_backend
           (sample_props (Some "select 1 from missing") [])
           failing_query_driver [] sample_pool [EvConnect (pool_config sample_pool)]
           eq_refl).
Defined.

(** ** Connection acquisition *)

Lemma truthy_string_Some db : db <> "" -> truthy_string (Some db) = true.
Proof. intros Hne. simpl. by destruct (String.eqb_spec db "") as [->|_]. Qed.

(** X3. With an endpoint, an authentication block and a database name
    that is not empty, [createConnection] makes exactly one connection
    attempt, with the configuration built from its arguments: the given
    database and timeout, the server certificate always trusted,
    encryption exactly when [useSsl] is truthy. It returns the pool when
    the driver accepts, and otherwise throws an [IntegrationError] whose
    message is ["Failed to connect to Microsoft SQL, "] followed by the
    driver's message. The pooled plugin always names a server (the empty
    string for a missing host); [src/index.ts] passes the host as it is. *)
Theorem createConnection_attempts_once cfg timeout drv tr ep auth db :
  endpoint cfg = Some ep ->
  authentication cfg = Some auth ->
  databaseName_value auth = Some db ->
  db <> "" ->
  (forall pooled : bool,
     (if pooled then Pooled.createConnection else Legacy.createConnection)
       cfg timeout drv tr
     = (match connect_reply drv tr (sqlConfig_of pooled cfg ep auth timeout) with
        | None => Returned {| pool_config := sqlConfig_of pooled cfg ep auth timeout |}
        | Some err =>
            Thrown (IntegrationError
                      ("Failed to connect to " +:+ pluginName +:+ ", " +:+ message err))
        end,
        tr ++ [EvConnect (sqlConfig_of pooled cfg ep auth timeout)])
     /\ database (sqlConfig_of pooled cfg ep auth timeout) = db
     /\ requestTimeout (sqlConfig_of pooled cfg ep auth timeout) = timeout
     /\ trustServerCertificate (sqlConfig_of pooled cfg ep auth timeout) = true
     /\ (encrypt (sqlConfig_of pooled cfg ep auth timeout) = true
         <-> exists c, connection cfg = Some c /\ useSsl c = Some true))
  /\ server (sqlConfig_of true cfg ep auth timeout) = Some (default "" (host ep))
  /\ server (sqlConfig_of false cfg ep auth timeout) = host ep.
Proof.
  intros Hep Hauth Hdb Hne. split; [|done].
  intros pooled.
  split.
  - destruct pooled; unfold Pooled.createConnection, Legacy.createConnection;
      rewrite Hep, Hauth, Hdb, (truthy_string_Some db Hne); simpl;
      unfold sqlConfig_of, try_catch, connect, throw; rewrite Hdb; simpl;
      by destruct (connect_reply drv tr _).
  - unfold sqlConfig_of. simpl. rewrite Hdb. do 3 (split; [done|]).
    destruct (connection cfg) as [c|]; simpl.
    + destruct (useSsl c) as [[|]|] eqn:Hssl; simpl.
      * split; [|done]. intros _. exists c. by split.
      * split; [done|]. intros (c' & [= <-] & Htrue). congruence.
      * split; [done|]. intros (c' & [= <-] & Htrue). congruence.
    + split; [done|]. intros (c' & Hc & _). discriminate Hc.
Qed.

(** A refused connection: one attempt, the driver's message kept. *)
Lemma createConnection_attempts_once_witness :
  Pooled.createConnection sample_configuration default_connectionTimeoutMillis
    refusing_driver []
  = (Thrown (IntegrationError "Failed to connect to Microsoft SQL, login failed"),
     [EvConnect (pool_config sample_pool)]).
Proof.
  exact (proj1 (proj1 (createConnection_attempts_once sample_configuration
                         default_connectionTimeoutMillis refusing_driver []
                         {| host := Some "db.example"; endpoint_port := Some 1433%Z |}
                         {| username := Some "sa"; auth_password := Some "secret";
                            custom := Some {| databaseName := Some {| value := Some "main" |} |} |}
                         "main" eq_refl eq_refl eq_refl ltac:(discriminate))
                  true)).
Defined.

(** X4. The failures of [createConnection] are of two kinds only. Either
    it is one of the three configuration errors, and nothing has reached
    the driver; or the driver refused the single connection attempt, and
    the error is an [IntegrationError] that carries the driver's message
    behind ["Failed to connect to Microsoft SQL, "]. No error of the driver
    leaves [createConnection] unwrapped. *)
Theorem createConnection_fails_two_ways cfg timeout drv tr err tr1 :
  Pooled.createConnection cfg timeout drv tr = (Thrown err, tr1)
  \/ Legacy.createConnection cfg timeout drv tr = (Thrown err, tr1) ->
  (err ∈ [missing_field_error "Endpoint"; missing_field_error "Authentication";
          missing_field_error "Database"]
   /\ tr1 = tr)
  \/ exists cause sqlConfig,
       connect_reply drv tr sqlConfig = Some cause
       /\ err = IntegrationError
                  ("Failed to connect to " +:+ pluginName +:+ ", " +:+ message cause)
       /\ tr1 = tr ++ [EvConnect sqlConfig].
Proof.
  unfold Pooled.createConnection, Legacy.createConnection.
  destruct (endpoint cfg) as [ep|].
  2: { intros [[= <- <-]|[= <- <-]]; left; (split; [|done]); apply list_elem_of_here. }
  destruct (authentication cfg) as [auth|].
  2: { intros [[= <- <-]|[= <- <-]]; left; (split; [|done]);
       apply list_elem_of_further, list_elem_of_here. }
  destruct (negb (truthy_string (databaseName_value auth))).
  { intros [[= <- <-]|[= <- <-]]; left; (split; [|done]);
    do 2 apply list_elem_of_further; apply list_elem_of_here. }
  unfold try_catch, connect, throw.
  intros [H|H]; right;
    match type of H with context [connect_reply drv tr ?sc] =>
      destruct (connect_reply drv tr sc) as [cause|] eqn:Hreply; [|discriminate H];
      injection H as <- <-; exists cause, sc end; done.
Qed.

(** The refused connection is a failure of the second kind. *)
Lemma createConnection_fails_two_ways_witness :
  exists cause sqlConfig,
    connect_reply refusing_driver [] sqlConfig = Some cause
    /\ IntegrationError "Failed to connect to Microsoft SQL, login failed"
       = IntegrationError
           ("Failed to connect to " +:+ pluginName +:+ ", " +:+ message cause)
    /\ [EvConnect (pool_config sample_pool)] = [] ++ [EvConnect sqlConfig].
Proof.
  destruct (createConnection_fails_two_ways sample_configuration
              default_connectionTimeoutMillis refusing_driver []
              (IntegrationError "Failed to connect to Microsoft SQL, login failed")
              [EvConnect (pool_config sample_pool)] (or_introl eq_refl))
    as [[Hin _]|Hcause]; [|exact Hcause].
  exfalso. other_elements Hin.
Defined.

(** X5. The two plugins acquire alike whenever the endpoint names a
    host: the same attempt, the same outcome. They differ only for a
    missing host, where the pooled plugin connects to the server [""] and
    [src/index.ts] hands the driver an undefined server. *)
Theorem createConnection_same_in_both_files cfg timeout drv tr :
  (forall ep, endpoint cfg = Some ep -> is_Some (host ep)) ->
  Legacy.createConnection cfg timeout drv tr = Pooled.createConnection cfg timeout drv tr.
Proof.
  intros Hhost. unfold Pooled.createConnection, Legacy.createConnection.
  destruct (endpoint cfg) as [ep|]; [|done].
  destruct (Hhost ep eq_refl) as [h Hh].
  destruct (authentication cfg) as [auth|]; [|done].
  destruct (negb _); [done|]. by rewrite Hh.
Qed.

(** The sample configuration names a host; one without a host is
    acquired differently. *)
Lemma createConnection_same_in_both_files_witness :
  Legacy.createConnection sample_configuration default_connectionTimeoutMillis
    quiet_driver []
  = Pooled.createConnection sample_configuration default_connectionTimeoutMillis
      quiet_driver []
  /\ Legacy.createConnection hostless_configuration default_connectionTimeoutMillis
       quiet_driver []
     <> Pooled.createConnection hostless_configuration default_connectionTimeoutMillis
          quiet_driver [].
Proof.
  split.
  - apply createConnection_same_in_both_files.
    intros ep [= <-]. by eexists.
  - vm_compute. intros H. discriminate H.
Defined.

(** ** Operations around the connection *)

(** X6. When the acquisition fails, the operation ends there: no query
    is sent and nothing is closed. [metadata] and [test] of the pooled
    plugin fail with the acquisition's own error; in [src/index.ts] the
    acquisition sits inside the [try], so its error is wrapped once
    more, by [metadata] as ["Failed to connect to Microsoft SQL, ..."], by
    [test] as ["Test Microsoft SQL connection failed, ..."] and by
    [execute] as ["Microsoft SQL query failed, ..."]. *)
Theorem failed_acquisition_ends_the_operation sb props drv tr err tr1 :
  let cfg := props_datasourceConfiguration props in
  (Pooled.createConnection cfg default_connectionTimeoutMillis drv tr = (Thrown err, tr1) ->
   Pooled.metadata cfg drv tr = (Thrown err, tr1)
   /\ Pooled.test cfg drv tr = (Thrown err, tr1))
  /\ (Legacy.createConnection cfg default_connectionTimeoutMillis drv tr
      = (Thrown err, tr1) ->
      Legacy.metadata cfg drv tr
      = (Thrown (IntegrationError
                   ("Failed to connect to " +:+ pluginName +:+ ", " +:+ message err)),
         tr1)
      /\ Legacy.test cfg drv tr
         = (Thrown (IntegrationError
                      ("Test " +:+ pluginName +:+ " connection failed, " +:+ message err)),
            tr1)
      /\ Legacy.execute sb props drv tr
         = (Thrown (IntegrationError (pluginName +:+ " query failed, " +:+ message err)),
            tr1)).
Proof.
  intros cfg. split; intros Hacq.
  - unfold Pooled.metadata, Pooled.test, bind. by rewrite Hacq.
  - unfold Legacy.metadata, Legacy.test, Legacy.execute, Legacy.try_with_connection.
    fold cfg. by rewrite Hacq.
Qed.

(** A refused connection under [test] of both plugins: one attempt, no
    query, no close; [src/index.ts] prefixes the message a second time. *)
Lemma failed_acquisition_ends_the_operation_witness :
  Pooled.test sample_configuration refusing_driver []
  = (Thrown (IntegrationError "Failed to connect to Microsoft SQL, login failed"),
     [EvConnect (pool_config sample_pool)])
  /\ Legacy.test sample_configuration refusing_driver []
     = (Thrown (IntegrationError
                  "Test Microsoft SQL connection failed, Failed to connect to Microsoft SQL, login failed"),
        [EvConnect (pool_config sample_pool)]).
Proof.
  pose proof (failed_acquisition_ends_the_operation spec_backend (sample_props None [])
                refusing_driver []
                (IntegrationError "Failed to connect to Microsoft SQL, login failed")
                [EvConnect (pool_config sample_pool)]) as [Hpooled Hlegacy].
  split.
  - exact (proj2 (Hpooled eq_refl)).
  - exact (proj1 (proj2 (Hlegacy eq_refl))).
Defined.

(** X7. [test] with its connection acquired sends the probe
    [select name from sys.databases] with no input, then closes. It
    returns when the probe returns, whatever rows come back, and
    otherwise throws an [IntegrationError] whose message is
    ["Test Microsoft SQL connection failed, "] followed by the driver's
    message. Both plugins behave alike. *)
Theorem test_reports_the_probe cfg drv tr conn tr1 :
  let outcome :=
    match query_reply drv tr1 [] test_sql with
    | Returned _ => Returned tt
    | Thrown err =>
        Thrown (IntegrationError
                  ("Test " +:+ pluginName +:+ " connection failed, " +:+ message err))
    end in
  (Pooled.createConnection cfg default_connectionTimeoutMillis drv tr
   = (Returned conn, tr1) ->
   Pooled.test cfg drv tr = (outcome, tr1 ++ [EvQuery [] test_sql; EvClose conn]))
  /\ (Legacy.createConnection cfg default_connectionTimeoutMillis drv tr
      = (Returned conn, tr1) ->
      Legacy.test cfg drv tr = (outcome, tr1 ++ [EvQuery [] test_sql; EvClose conn])).
Proof.
  intros outcome. unfold outcome. split; intros Hacq.
  - unfold Pooled.test. rewrite (pooled_shape cfg _ drv tr conn tr1 Hacq).
    unfold_effects. simpl.
    destruct (query_reply drv tr1 [] test_sql); simpl;
      match goal with |- context [close_reply drv ?t conn] =>
        destruct (close_reply drv t conn) end; simpl; by rewrite <- app_assoc.
  - unfold Legacy.test. rewrite (legacy_shape _ _ _ _ drv tr conn tr1 Hacq).
    unfold_effects. simpl.
    destruct (query_reply drv tr1 [] test_sql); simpl;
      match goal with |- context [close_reply drv ?t conn] =>
        destruct (close_reply drv t conn) end; simpl; by rewrite <- app_assoc.
Qed.

(** A probe that fails: the error names the test, the connection is
    closed all the same. *)
Lemma test_reports_the_probe_witness :
  Pooled.test sample_configuration failing_query_driver []
  = (Thrown (IntegrationError
               "Test Microsoft SQL connection failed, invalid object name"),
     [EvConnect (pool_config sample_pool); EvQuery [] test_sql; EvClose sample_pool]).
Proof.
  exact (proj1 (test_reports_the_probe sample_configuration failing_query_driver []
                  sample_pool [EvConnect (pool_config sample_pool)])
           eq_refl).
Defined.

(** X8. [metadata] with its connection acquired sends the catalog query
    with no input, then closes. A failure of the query and a failure of the
    fold are both thrown as an [IntegrationError] whose message is
    ["Failed to connect to Microsoft SQL, "] followed by the cause's
    message, although the connection was made; otherwise the schema built
    from the rows is returned. Both plugins behave alike. *)
Theorem metadata_reports_the_catalog cfg drv tr conn tr1 :
  let wrap (err : JsError) : Outcome DatasourceMetadataDto :=
    Thrown (IntegrationError
              ("Failed to connect to " +:+ pluginName +:+ ", " +:+ message err)) in
  let outcome :=
    match catalog_reply drv tr1 with
    | Returned recordset =>
        match build_schema recordset with
        | Returned dto => Returned dto
        | Thrown err => wrap err
        end
    | Thrown err => wrap err
    end in
  (Pooled.createConnection cfg default_connectionTimeoutMillis drv tr
   = (Returned conn, tr1) ->
   Pooled.metadata cfg drv tr = (outcome, tr1 ++ [EvQuery [] catalog_sql; EvClose conn]))
  /\ (Legacy.createConnection cfg default_connectionTimeoutMillis drv tr
      = (Returned conn, tr1) ->
      Legacy.metadata cfg drv tr
      = (outcome, tr1 ++ [EvQuery [] catalog_sql; EvClose conn])).
Proof.
  intros wrap outcome. unfold outcome, wrap. split; intros Hacq.
  - unfold Pooled.metadata. rewrite (pooled_shape cfg _ drv tr conn tr1 Hacq).
    unfold_effects. simpl.
    destruct (catalog_reply drv tr1) as [recordset|err]; simpl;
      [destruct (build_schema recordset); simpl|];
      match goal with |- context [close_reply drv ?t conn] =>
        destruct (close_reply drv t conn) end; simpl; by rewrite <- app_assoc.
  - unfold Legacy.metadata. rewrite (legacy_shape _ _ _ _ drv tr conn tr1 Hacq).
    unfold_effects. simpl.
    destruct (catalog_reply drv tr1) as [recordset|err]; simpl;
      [destruct (build_schema recordset); simpl|];
      match goal with |- context [close_reply drv ?t conn] =>
        destruct (close_reply drv t conn) end; simpl; by rewrite <- app_assoc.
Qed.

(** A catalog query that is denied: reported as a failure to connect. *)
Lemma metadata_reports_the_catalog_witness :
  Pooled.metadata sample_configuration failing_query_driver []
  = (Thrown (IntegrationError "Failed to connect to Microsoft SQL, permission denied"),
     [EvConnect (pool_config sample_pool); EvQuery [] catalog_sql; EvClose sample_pool]).
Proof.
  exact (proj1 (metadata_reports_the_catalog sample_configuration failing_query_driver []
                  sample_pool [EvConnect (pool_config sample_pool)])
           eq_refl).
Defined.

(** ** The schema that [metadata] builds *)

(** X9. Over catalog rows whose table names are no property names of
    [Object.prototype], [metadata] with its connection acquired returns a
    schema with exactly one table per table name of the rows, and every
    table holds one column (name, data type) per row of its name, in the
    order of the rows. [metadata] of [src/index.ts] returns the same
    schema. *)
Theorem metadata_groups_rows_by_table cfg drv tr conn tr1 recordset :
  Pooled.createConnection cfg default_connectionTimeoutMillis drv tr
  = (Returned conn, tr1) ->
  catalog_reply drv tr1 = Returned recordset ->
  Forall (fun r => table_name r ∉ Object_prototype_names) recordset ->
  exists dto,
    fst (Pooled.metadata cfg drv tr) = Returned dto
    /\ NoDup (tbl_name <$> tables (dbSchema dto))
    /\ (forall name,
          name ∈ tbl_name <$> tables (dbSchema dto) <-> name ∈ table_name <$> recordset)
    /\ Forall (fun t => columns t = columns_of (tbl_name t) recordset)
         (tables (dbSchema dto))
    /\ (forall legacy_conn legacy_tr1,
          Legacy.createConnection cfg default_connectionTimeoutMillis drv tr
          = (Returned legacy_conn, legacy_tr1) ->
          catalog_reply drv legacy_tr1 = Returned recordset ->
          fst (Legacy.metadata cfg drv tr) = Returned dto).
Proof.
  intros Hacq Hcat Hok.
  destruct (schema_groups_rows_by_table recordset Hok)
    as (dto & Hbuilt & Hnd & Hnames & Hcols).
  exists dto. split; [|split; [exact Hnd|split; [exact Hnames|split; [exact Hcols|]]]].
  - rewrite (proj1 (metadata_returns_built_schema cfg drv tr recordset) conn tr1 Hacq Hcat).
    by rewrite Hbuilt.
  - intros legacy_conn legacy_tr1 Hacq' Hcat'.
    rewrite (proj2 (metadata_returns_built_schema cfg drv tr recordset)
               legacy_conn legacy_tr1 Hacq' Hcat').
    by rewrite Hbuilt.
Qed.

(** Two tables whose rows alternate: each table gets its own columns, in
    the order of its rows. *)
Lemma metadata_groups_rows_by_table_witness :
  fst (Pooled.metadata sample_configuration
         (catalog_driver [catalog_row "a" "x" "int"; catalog_row "b" "y" "int";
                          catalog_row "a" "z" "bit"]) [])
  = Returned
      {| dbSchema :=
           {| tables :=
                [ {| tbl_name := "a"; tbl_type := TABLE;
                     columns := [{| col_name := "x"; col_type := "int" |};
                                 {| col_name := "z"; col_type := "bit" |}] |};
                  {| tbl_name := "b"; tbl_type := TABLE;
                     columns := [{| col_name := "y"; col_type := "int" |}] |} ] |} |}.
Proof.
  destruct (metadata_groups_rows_by_table sample_configuration
              (catalog_driver [catalog_row "a" "x" "int"; catalog_row "b" "y" "int";
                               catalog_row "a" "z" "bit"])
              [] sample_pool [EvConnect (pool_config sample_pool)]
              [catalog_row "a" "x" "int"; catalog_row "b" "y" "int";
               catalog_row "a" "z" "bit"] eq_refl eq_refl)
    as (dto & Hdto & _).
  - repeat (apply Forall_cons; split; [intros H; other_elements H|]).
    apply Forall_nil_2.
  - reflexivity.
Defined.

Lemma columns_of_cons name r rows :
  length (columns_of name (r :: rows))
  = (if bool_decide (table_name r = name) then 1 else 0) + length (columns_of name rows).
Proof.
  unfold columns_of. case_bool_decide as Heq.
  - by rewrite filter_cons_True.
  - by rewrite filter_cons_False.
Qed.

(** Summed over names that do not repeat, the rows of a list are counted
    once each if their name is among the names. *)
Lemma count_rows_by_name names : forall rows,
  NoDup names ->
  Forall (fun r => table_name r ∈ names) rows ->
  sum_list_with (fun name => length (columns_of name rows)) names = length rows.
Proof.
  intros rows Hnd. induction rows as [|r rows IH]; intros Hcover.
  - clear Hnd Hcover. induction names as [|n names IHn]; [done|]. exact IHn.
  - apply Forall_cons in Hcover as [Hr Hcover]. simpl. rewrite <- (IH Hcover).
    clear IH Hcover. induction Hnd as [|n names Hn Hnd IHn].
    + by apply elem_of_nil in Hr.
    + simpl. rewrite columns_of_cons. case_bool_decide as Heq.
      * subst n. assert (Hrest : sum_list_with
                                   (fun name => length (columns_of name (r :: rows))) names
                                 = sum_list_with
                                     (fun name => length (columns_of name rows)) names).
        { clear -Hn. induction names as [|n' names IHn']; [done|].
          apply not_elem_of_cons in Hn as [Hne Hn]. simpl.
          rewrite columns_of_cons, bool_decide_eq_false_2 by done.
          by rewrite IHn'. }
        rewrite Hrest. lia.
      * apply elem_of_cons in Hr as [Hr|Hr]; [congruence|].
        rewrite (IHn Hr). lia.
Qed.

(** X10. The fold loses no row and invents none: over catalog rows whose
    table names are no property names of [Object.prototype], the columns
    of all tables of the schema together are as many as the rows, and the
    tables as many as the different table names. *)
Theorem schema_keeps_every_row recordset :
  Forall (fun r => table_name r ∉ Object_prototype_names) recordset ->
  exists dto,
    build_schema recordset = Returned dto
    /\ sum_list_with (fun t => length (columns t)) (tables (dbSchema dto))
       = length recordset
    /\ length (tables (dbSchema dto))
       = length (first_encounters (table_name <$> recordset)).
Proof.
  intros Hok.
  destruct (schema_groups_rows_by_table recordset Hok)
    as (dto & Hbuilt & Hnd & Hnames & Hcols).
  exists dto. split; [done|]. split.
  - rewrite <- (count_rows_by_name (tbl_name <$> tables (dbSchema dto)) recordset Hnd).
    + clear -Hcols. induction Hcols as [|t ts Ht Hts IH]; [done|].
      csimpl. by rewrite Ht, IH.
    + apply Forall_forall. intros r Hr. apply Hnames.
      apply list_elem_of_fmap. eauto.
  - rewrite <- (length_fmap tbl_name). apply Permutation_length.
    apply NoDup_Permutation; [done|apply NoDup_first_encounters|].
    intros name. by rewrite Hnames, elem_of_first_encounters.
Qed.

(** Three rows over two tables: three columns, two tables. *)
Lemma schema_keeps_every_row_witness :
  exists dto,
    build_schema [catalog_row "a" "x" "int"; catalog_row "b" "y" "int";
                  catalog_row "a" "z" "bit"]
    = Returned dto
    /\ sum_list_with (fun t => length (columns t)) (tables (dbSchema dto)) = 3
    /\ length (tables (dbSchema dto)) = 2.
Proof.
  apply (schema_keeps_every_row
           [catalog_row "a" "x" "int"; catalog_row "b" "y" "int";
            catalog_row "a" "z" "bit"]).
  repeat (apply Forall_cons; split; [intros H; other_elements H|]).
  apply Forall_nil_2.
Defined.

Lemma prototype_names_are_no_indices name :
  name ∈ Object_prototype_names -> array_index name = None.
Proof.
  intros H.
  repeat (apply elem_of_cons in H as [->|H]; [by vm_compute|]).
  by apply elem_of_nil in H.
Qed.

(** The fold stops with the [TypeError] at the first row whose table name
    is a property name of [Object.prototype]. *)
Lemma fold_records_throws rows : forall names o,
  names_view names o ->
  Forall (fun name => name ∉ Object_prototype_names) names ->
  Exists (fun r => table_name r ∈ Object_prototype_names) rows ->
  fold_records o rows
  = Thrown (TypeError "Cannot read properties of undefined (reading 'push')").
Proof.
  induction rows as [|r rows IH]; intros names o Hview Hseen Hbad.
  - by apply Exists_nil in Hbad.
  - simpl. destruct (decide (table_name r ∈ Object_prototype_names)) as [Hr|Hr].
    + unfold fold_record, js_get, own_property.
      rewrite (prototype_names_are_no_indices _ Hr).
      destruct Hview as (Hnamed & _).
      assert (Hnone : assoc (table_name r) (named o) = None).
      { apply assoc_None. rewrite Hnamed. intros Hin.
        apply elem_of_first_encounters, list_elem_of_filter in Hin as [_ Hin].
        eapply Forall_forall in Hseen; [|exact Hin]. done. }
      rewrite Hnone. by rewrite bool_decide_eq_true_2.
    + destruct (fold_record_view names o r Hview Hr) as (o1 & -> & Hview1).
      apply (IH (names ++ [table_name r])); [done| |].
      * apply Forall_app. split; [done|]. by repeat constructor.
      * apply Exists_cons in Hbad as [Hbad|Hbad]; done.
Qed.

(** X11. The fold of the catalog rows fails exactly when some row's table
    name is a property name of [Object.prototype] ([constructor],
    [toString], [valueOf], [__proto__], ...): then it throws the
    [TypeError] of a [push] on [undefined], whatever the other rows are;
    otherwise it returns a schema. *)
Theorem schema_fails_exactly_on_prototype_names recordset :
  (Exists (fun r => table_name r ∈ Object_prototype_names) recordset ->
   build_schema recordset
   = Thrown (TypeError "Cannot read properties of undefined (reading 'push')"))
  /\ (~ Exists (fun r => table_name r ∈ Object_prototype_names) recordset ->
      exists dto, build_schema recordset = Returned dto).
Proof.
  split.
  - intros Hbad. unfold build_schema.
    by rewrite (fold_records_throws recordset [] js_empty names_view_empty
                  (Forall_nil_2 _) Hbad).
  - intros Hnone. apply (not_Exists_Forall _) in Hnone.
    destruct (fold_records_view recordset [] js_empty names_view_empty Hnone)
      as (o & Hfold & _).
    eexists. unfold build_schema. by rewrite Hfold.
Qed.

(** A table named [toString] after an ordinary table: no schema at all. *)
Lemma schema_fails_exactly_on_prototype_names_witness :
  build_schema [catalog_row "Users" "id" "int"; catalog_row "toString" "id" "int"]
  = Thrown (TypeError "Cannot read properties of undefined (reading 'push')").
Proof.
  apply (proj1 (schema_fails_exactly_on_prototype_names
                  [catalog_row "Users" "id" "int"; catalog_row "toString" "id" "int"])).
  apply Exists_cons_tl, Exists_cons_hd.
  do 8 apply list_elem_of_further. apply list_elem_of_here.
Defined.

(** ** From the resolver to the query *)

(** The end-to-end example executed: [5] under [PARAM_1], ["ann"] under
    [PARAM_2]. *)
Lemma resolved_parameters_reach_their_placeholders_witness :
  snd (Pooled.executePooled spec_backend
         {| props_context :=
              set_preparedStatementContext (context two_bindings)
                [JsNumber 5; JsString "ann"];
            props_datasourceConfiguration := sample_configuration;
            props_actionConfiguration :=
              {| body := Some "SELECT * FROM t WHERE id = @PARAM_1 AND name = @PARAM_2";
                 usePreparedSql := Some true |} |}
         sample_pool quiet_driver [])
  = [EvQuery [("PARAM_1", JsNumber 5); ("PARAM_2", JsString "ann")]
       "SELECT * FROM t WHERE id = @PARAM_1 AND name = @PARAM_2"].
Proof.
  exact (resolved_parameters_reach_their_placeholders spec_backend two_bindings
           (list_to_map [("{{id}}", JsNumber 5); ("{{name}}", JsString "ann")])
           sample_configuration sample_pool quiet_driver []
           eq_refl eq_refl eq_refl
           "SELECT * FROM t WHERE id = @PARAM_1 AND name = @PARAM_2"
           (set_preparedStatementContext (context two_bindings)
              [JsNumber 5; JsString "ann"])
           eq_refl ltac:(discriminate)).
Defined.

(** X13. On the prepared path the resolver writes to nothing of the
    context but [preparedStatementContext]: the host's bindings are the
    same after the call, in both plugins. When the evaluation of the
    bindings fails, the call fails with the evaluator's error as it is and
    does not touch the context at all: the parameter list of an earlier
    call stays. *)
Theorem resolver_touches_only_the_parameter_list sb base rc :
  truthy_flag (usePreparedSql (actionConfiguration rc)) = true ->
  property rc = "body" ->
  globals (snd (Pooled.resolveActionConfigurationProperty sb rc)) = globals (context rc)
  /\ snd (Legacy.resolveActionConfigurationProperty sb base rc)
     = snd (Pooled.resolveActionConfigurationProperty sb rc)
  /\ forall err,
       resolveAllBindings sb (propertyToResolve rc) (context rc)
         (default ∅ (files rc)) (escapeStrings rc) = Thrown err ->
       Pooled.resolveActionConfigurationProperty sb rc = (Thrown err, context rc)
       /\ Legacy.resolveActionConfigurationProperty sb base rc = (Thrown err, context rc).
Proof.
  intros Hflag Hprop.
  unfold Pooled.resolveActionConfigurationProperty,
    Legacy.resolveActionConfigurationProperty, resolve_prepared.
  rewrite Hflag, Hprop. simpl.
  destruct (resolveAllBindings sb _ _ _ _) as [m|err0]; simpl.
  - split; [done|]. split; [done|]. intros err Herr. discriminate Herr.
  - split; [done|]. split; [done|]. by intros err [= <-].
Qed.

(** The example's bindings are still [{id: 5, name: "ann"}] after the
    call. *)
Lemma resolver_touches_only_the_parameter_list_witness :
  globals (snd (Pooled.resolveActionConfigurationProperty spec_backend two_bindings))
  = {[ "id" := JsNumber 5; "name" := JsString "ann" ]}.
Proof.
  exact (proj1 (resolver_touches_only_the_parameter_list spec_backend
                  (fun rc => (Returned "", context rc)) two_bindings eq_refl eq_refl)).
Defined.

Lemma last_index_ge e l i : l !! i = Some e -> i <= last_index e l.
Proof.
  revert i. induction l as [|x l IH]; intros i Hi; [done|].
  destruct i as [|i]; simpl; [lia|].
  simpl in Hi. rewrite bool_decide_eq_true_2.
  - apply IH in Hi. lia.
  - apply list_elem_of_lookup. eauto.
Qed.

(** X14. Whatever the renderer, the placeholder that the resolver of
    either plugin hands to it for an expression text names a parameter that
    holds the value of every occurrence of that text: the text of the i-th
    occurrence is mapped to [@PARAM_(j+1)], where j is the position of the
    text's last occurrence (so i <= j), and the parameter list holds the
    evaluated value of the text at position j as it does at position i. A
    template that repeats a text is therefore executed with the values it
    asks for. The one text that is mapped to nothing is ["__proto__"],
    under which an assignment to a plain object creates no property; its
    value still takes its place in the parameter list. *)
Theorem placeholder_names_the_occurrence_value sb rc m :
  truthy_flag (usePreparedSql (actionConfiguration rc)) = true ->
  property rc = "body" ->
  resolveAllBindings sb (propertyToResolve rc) (context rc)
    (default ∅ (files rc)) (escapeStrings rc) = Returned m ->
  let toEvals := extractMustacheStrings sb (propertyToResolve rc) in
  exists resolution context',
    Pooled.resolveActionConfigurationProperty sb rc
    = (Returned {| resolved := renderValue sb (propertyToResolve rc) resolution |},
       context')
    /\ (forall base,
          Legacy.resolveActionConfigurationProperty sb base rc
          = (Returned (renderValue sb (propertyToResolve rc) resolution), context'))
    /\ resolution !! "__proto__" = None
    /\ forall i toEval,
         toEvals !! i = Some toEval ->
         let j := last_index toEval toEvals in
         (toEval <> "__proto__" -> resolution !! toEval = Some (placeholder (S j)))
         /\ i <= j
         /\ preparedStatementContext context' !! j = Some (resolution_of m toEval)
         /\ preparedStatementContext context' !! i = Some (resolution_of m toEval).
Proof.
  intros Hflag Hprop Hm toEvals.
  destruct (resolver_on_prepared_path sb rc m Hflag Hprop Hm) as [Hp Hl].
  eexists _, _. split; [exact Hp|]. split; [exact Hl|]. fold toEvals.
  split; [by rewrite bind_expressions_proto|].
  intros i toEval Hi j.
  assert (Hin : toEval ∈ toEvals) by (apply list_elem_of_lookup; eauto).
  split; [intros Hne; by rewrite bind_expressions_last|].
  split; [by apply last_index_ge|].
  simpl. rewrite bind_expressions_context. simpl.
  rewrite !list_lookup_fmap, Hi. unfold j.
  by rewrite (last_index_lookup _ _ Hin).
Qed.

(** The repeated [{{id}}]: both occurrences are handed [@PARAM_2], and
    the second parameter is 5 like the first. *)
Lemma placeholder_names_the_occurrence_value_witness :
  exists resolution context',
    Pooled.resolveActionConfigurationProperty spec_backend repeated_binding
    = (Returned {| resolved :=
                     renderValue spec_backend (propertyToResolve repeated_binding)
                       resolution |},
       context')
    /\ resolution !! "{{id}}" = Some "@PARAM_2"
    /\ preparedStatementContext context' !! 1 = Some (JsNumber 5)
    /\ preparedStatementContext context' !! 0 = Some (JsNumber 5).
Proof.
  destruct (placeholder_names_the_occurrence_value spec_backend repeated_binding
              (list_to_map [("{{id}}", JsNumber 5)]) eq_refl eq_refl eq_refl)
    as (resolution & context' & Hp & _ & _ & Hat).
  exists resolution, context'. split; [exact Hp|].
  destruct (Hat 0 "{{id}}" eq_refl) as (Hres & _ & Hj & Hi).
  split; [apply Hres; discriminate|]. split; [exact Hj|exact Hi].
Defined.

(** X15. The raw request that [getRequest] reports for an action is the
    text that is executed for it: when it reports a text that is not
    empty, [executePooled] sends exactly that text as its one query, and
    when it reports none or an empty one, [executePooled] sends
    nothing. *)
Theorem getRequest_is_the_query_sent sb props conn drv tr :
  match Pooled.getRequest (Some (props_actionConfiguration props)) with
  | Some q =>
      if String.eqb q "" then snd (Pooled.executePooled sb props conn drv tr) = tr
      else exists bound,
             snd (Pooled.executePooled sb props conn drv tr) = tr ++ [EvQuery bound q]
  | None => snd (Pooled.executePooled sb props conn drv tr) = tr
  end.
Proof.
  unfold Pooled.getRequest.
  destruct (body (props_actionConfiguration props)) as [q|] eqn:Hq.
  - destruct (String.eqb q "") eqn:Hempty.
    + unfold Pooled.executePooled. rewrite falsy_or_isEmpty, Hq. simpl.
      by rewrite Hempty.
    + eexists. rewrite executePooled_sends.
      * by rewrite Hq.
      * rewrite Hq. simpl. exact Hempty.
  - unfold Pooled.executePooled. by rewrite falsy_or_isEmpty, Hq.
Qed.
